(** * The optional struct-field lookup function of mgmt's language runtime

    A shallow embedding of [lang/funcs/struct_lookup_optional_func.go]:
    the argument-name accessor, the generator of type invariants handed to
    the solver, [Build] and [Validate], and the streaming loop.  Pointers
    that may be nil are [option]s, Go's [error] is [option Error] with
    [None] for nil, and run-time panics are an outcome of their own. *)

From stdpp Require Import gmap strings list.
From Stdlib Require Import ZArith Lia.

Open Scope string_scope.
Open Scope list_scope.

(** ** Errors *)

(** [fmt.Errorf] and [errwrap.Wrapf].  An error is identified by its format
    string; the rendered arguments are not kept. *)
Inductive Error :=
| Errorf (format : string)
| Wrapf (err : Error) (format : string).

(** What a Go call can do: return a value, return an error, or panic. *)
Inductive Result (A : Type) :=
| Ok (a : A)
| Err (e : Error)
| Panic.
Arguments Ok {A} a.
Arguments Err {A} e.
Arguments Panic {A}.

#[global] Instance Result_ret : MRet Result := λ A a, Ok a.
#[global] Instance Result_bind : MBind Result := λ A B k r,
  match r with
  | Ok a => k a
  | Err e => Err e
  | Panic => Panic
  end.

(** A Go map read [m[k]] on a map kept as an association list: the value
    and whether the key exists. *)
Fixpoint assoc {A} (k : string) (m : list (string * A)) : option A :=
  match m with
  | [] => None
  | (k', a) :: m' => if String.eqb k k' then Some a else assoc k m'
  end.

(** ** The type and value model (package [types]) *)

Module types.

Inductive Kind :=
| KindBool | KindStr | KindInt | KindFloat
| KindStruct | KindFunc | KindVariant.

Definition Kind_eqb (a b : Kind) : bool :=
  match a, b with
  | KindBool, KindBool | KindStr, KindStr | KindInt, KindInt
  | KindFloat, KindFloat | KindStruct, KindStruct | KindFunc, KindFunc
  | KindVariant, KindVariant => true
  | _, _ => false
  end.

(** Modelled from the spec: the type descriptor [types.Type], whose
    declaration is not part of the file.  The fields are the ones the
    function reads: [Kind], the argument or member map [Map] with its
    order [Ord], and the return type [Out].  A nil map is [None], a nil
    type pointer stored in the map is [None]; [KindVariant] is the
    unresolved type. *)
#[local] Unset Elimination Schemes.
Inductive Type_ := MkType {
  TKind : Kind;
  TMap : option (list (string * option Type_));
  TOrd : list string;
  TOut : option Type_;
}.
#[local] Set Elimination Schemes.

Definition prim (k : Kind) : Type_ :=
  {| TKind := k; TMap := None; TOrd := []; TOut := None |}.

Definition TypeBool : Type_ := prim KindBool.
Definition TypeStr : Type_ := prim KindStr.
Definition TypeInt : Type_ := prim KindInt.
Definition TypeFloat : Type_ := prim KindFloat.

Definition NewStruct (fields : list (string * Type_)) : Type_ :=
  {| TKind := KindStruct;
     TMap := Some (prod_map id Some <$> fields);
     TOrd := fst <$> fields;
     TOut := None |}.

Definition NewFunc (args : list (string * Type_)) (out : Type_) : Type_ :=
  {| TKind := KindFunc;
     TMap := Some (prod_map id Some <$> args);
     TOrd := fst <$> args;
     TOut := Some out |}.

Definition Ord_eqb (a b : list string) : bool := bool_decide (a = b).

(** Modelled from the spec: [Cmp] on types succeeds (returns nil) iff the
    two types are structurally identical, recursively, and comparing
    against the unresolved type always succeeds. *)
Fixpoint TypeCmp (obj typ : Type_) {struct obj} : option Error :=
  match obj with
  | MkType k m ord out =>
    match k, TKind typ with
    | KindVariant, _ | _, KindVariant => None
    | _, _ =>
      if negb (Kind_eqb k (TKind typ)) then
        Some (Errorf "base kind does not match")
      else
        match k with
        | KindStruct | KindFunc =>
          if negb (Ord_eqb ord (TOrd typ)) then
            Some (Errorf "field names differ")
          else
            match m, TMap typ with
            | Some m1, Some m2 =>
              let fields :=
                (fix go (l : list (string * option Type_)) : option Error :=
                   match l with
                   | [] => None
                   | (x, Some t1) :: l' =>
                     match assoc x m2 with
                     | Some (Some t2) =>
                       match TypeCmp t1 t2 with
                       | None => go l'
                       | Some e => Some e
                       end
                     | _ => Some (Errorf "field is missing")
                     end
                   | (_, None) :: _ => Some (Errorf "cannot compare to nil")
                   end) m1 in
              match fields with
              | Some e => Some e
              | None =>
                match out, TOut typ with
                | None, None => None
                | Some o1, Some o2 => TypeCmp o1 o2
                | _, _ => Some (Errorf "cannot compare to nil")
                end
              end
            | _, _ => Some (Errorf "malformed type")
            end
        | _ => None
        end
    end
  end.

(** Modelled from the spec: [Cmp] as the callers reach it, through
    pointers.  The spec is silent on nil; a nil receiver or a nil argument
    is taken to be an error, which is why the callers guard the result with
    a nil test of their own. *)
Definition Cmp (obj typ : option Type_) : option Error :=
  match obj, typ with
  | Some a, Some b => TypeCmp a b
  | _, _ => Some (Errorf "cannot compare to nil")
  end.

(** Modelled from the spec: a runtime value, comparable structurally,
    with member lookup on struct values and string extraction on string
    values.  A struct value keeps its members in the order of its type. *)
#[local] Unset Elimination Schemes.
Inductive Value :=
| BoolValue (V : bool)
| StrValue (V : string)
| IntValue (V : Z)
| StructValue (V : list (string * Value)).
#[local] Set Elimination Schemes.

Fixpoint Value_eqb (a b : Value) {struct a} : bool :=
  match a, b with
  | BoolValue x, BoolValue y => Bool.eqb x y
  | StrValue x, StrValue y => String.eqb x y
  | IntValue x, IntValue y => Z.eqb x y
  | StructValue x, StructValue y =>
    (fix go (l1 l2 : list (string * Value)) : bool :=
       match l1, l2 with
       | [], [] => true
       | (k1, v1) :: l1', (k2, v2) :: l2' =>
         String.eqb k1 k2 && Value_eqb v1 v2 && go l1' l2'
       | _, _ => false
       end) x y
  | _, _ => false
  end.

(** Modelled from the spec: [Cmp] on values, nil iff the two values are
    structurally identical. *)
Definition ValueCmp (a b : Value) : option Error :=
  if Value_eqb a b then None else Some (Errorf "values differ").

(** Modelled from the spec: [v.Type()], the type a value is tagged with. *)
Fixpoint ValueType (v : Value) : Type_ :=
  match v with
  | BoolValue _ => TypeBool
  | StrValue _ => TypeStr
  | IntValue _ => TypeInt
  | StructValue V =>
    NewStruct ((fix go (l : list (string * Value)) : list (string * Type_) :=
                  match l with
                  | [] => []
                  | (k, x) :: l' => (k, ValueType x) :: go l'
                  end) V)
  end.

(** Modelled from the spec: [v.Str()] and [v.Struct()], the raw string and
    the member map.  They panic on a value of another kind; [None] stands
    for the panic. *)
Definition Str (v : Value) : option string :=
  match v with StrValue s => Some s | _ => None end.

Definition Struct (v : Value) : option (list (string * Value)) :=
  match v with StructValue V => Some V | _ => None end.

(** Modelled from the spec: [Lookup] on a struct value, the member and
    whether it exists. *)
Definition Lookup (st : list (string * Value)) (k : string) : option Value :=
  assoc k st.

End types.
Import types.

(** ** The function node *)

Definition StructLookupOptionalFuncName : string := "_struct_lookup_optional".
Definition structLookupOptionalArgNameStruct : string := "struct".
Definition structLookupOptionalArgNameField : string := "field".
Definition structLookupOptionalArgNameOptional : string := "optional".

(** The node.  [init], the pair of channels bound by [Init], is not a field
    here: the streaming loop below takes what the channels deliver as a
    schedule and returns what it sends. *)
Record StructLookupOptionalFunc := {
  obj_Type : option Type_;    (* Kind == Struct, the struct we look up in *)
  obj_Out : option Type_;     (* type of the field, and of optional *)
  obj_last : option Value;    (* last value received, to use for diff *)
  obj_field : string;
  obj_result : option Value;  (* last calculated output *)
}.

(** [&StructLookupOptionalFunc{}], as the registered constructor makes it. *)
Definition new_func : StructLookupOptionalFunc :=
  {| obj_Type := None; obj_Out := None; obj_last := None;
     obj_field := EmptyString; obj_result := None |}.

Definition String (obj : StructLookupOptionalFunc) : string :=
  StructLookupOptionalFuncName.

(** Go's slice read [s[i]]: out of range is a run-time panic. *)
Definition index {A} (s : list A) (i : Z) : Result A :=
  if (i <? 0)%Z then Panic
  else match s !! Z.to_nat i with
       | Some a => Ok a
       | None => Panic
       end.

(** [ArgGen] returns the Nth arg name for this function. *)
Definition ArgGen (i : Z) : Result string :=
  let seq := [structLookupOptionalArgNameStruct;
              structLookupOptionalArgNameField;
              structLookupOptionalArgNameOptional] in
  let l := Z.of_nat (length seq) in
  if (i >=? l)%Z then Err (Errorf "index %d exceeds arg length of %d")
  else index seq i.

(** Modelled from the spec: the helper [sig] renders the signature
    [func(struct T, field str, optional O) O] and parses it back with
    [types.NewType]; neither the printer nor the parser is part of the file,
    so the function type is built directly.  Printing a nil type panics. *)
Definition sig (obj : StructLookupOptionalFunc) : Result Type_ :=
  match obj_Type obj, obj_Out obj with
  | Some t, Some o =>
    Ok (NewFunc [(structLookupOptionalArgNameStruct, t);
                 (structLookupOptionalArgNameField, TypeStr);
                 (structLookupOptionalArgNameOptional, o)] o)
  | _, _ => Panic
  end.

(** [Build] turns the polymorphic function into the statically typed one.
    The receiver is returned with [Type] and [Out] set. *)
Definition Build (obj : StructLookupOptionalFunc) (typ : Type_)
  : Result (StructLookupOptionalFunc * Type_) :=
  if negb (Kind_eqb (TKind typ) KindFunc) then
    Err (Errorf "input type must be of kind func")
  else if negb (length (TOrd typ) =? 3)%nat then
    Err (Errorf "the structlookup function needs exactly three args")
  else
    match TOut typ with
    | None => Err (Errorf "return type of function must be specified")
    | Some _ =>
      match TMap typ with
      | None => Err (Errorf "invalid input type")
      | Some m =>
        k0 ← index (TOrd typ) 0;
        match assoc k0 m with
        | Some (Some tStruct) =>
          k1 ← index (TOrd typ) 1;
          match assoc k1 m with
          | Some (Some tField) =>
            match Cmp (Some tField) (Some TypeStr) with
            | Some err => Err (Wrapf err "field must be an str")
            | None =>
              k2 ← index (TOrd typ) 2;
              match assoc k2 m with
              | Some (Some tOptional) =>
                match Cmp (Some tOptional) (TOut typ) with
                | Some err => Err (Wrapf err "optional arg must match return type")
                | None =>
                  let obj' := {| obj_Type := Some tStruct;
                                 obj_Out := TOut typ;
                                 obj_last := obj_last obj;
                                 obj_field := obj_field obj;
                                 obj_result := obj_result obj |} in
                  s ← sig obj';
                  Ok (obj', s)
                end
              | _ => Err (Errorf "third arg must be specified")
              end
            end
          | _ => Err (Errorf "second arg must be specified")
          end
        | _ => Err (Errorf "first arg must be specified")
        end
      end
    end.

(** [Validate] tells us if the input struct takes a valid form. *)
Definition Validate (obj : StructLookupOptionalFunc) : option Error :=
  match obj_Type obj with
  | None => Some (Errorf "type is still unspecified")
  | Some t =>
    if negb (Kind_eqb (TKind t) KindStruct) then
      Some (Errorf "type must be a kind of struct")
    else
      match obj_Out obj with
      | None => Some (Errorf "return type must be specified")
      | Some _ => None
      end
  end.

(** [Info]: static information about the node.  It does not fail before
    [Build]: the signature is then nil and [Err] carries what [Validate]
    says. *)
Record Info := {
  Pure : bool;
  Memo : bool;
  Sig : option Type_;
  InfoErr : option Error;
}.

Definition GetInfo (obj : StructLookupOptionalFunc) : Result Info :=
  s ← match obj_Type obj with
      | Some _ => t ← sig obj; Ok (Some t)
      | None => Ok None
      end;
  Ok {| Pure := true; Memo := false; Sig := s; InfoErr := Validate obj |}.

(** ** The streaming loop *)

(** What one received input does to the loop: go round again without
    sending ([continue]), fall through to the send, return, or panic. *)
Inductive Cycle :=
| Continue (obj : StructLookupOptionalFunc)
| Send (obj : StructLookupOptionalFunc)
| Return (obj : StructLookupOptionalFunc) (err : option Error)
| Panicked (obj : StructLookupOptionalFunc).

Definition set_last (obj : StructLookupOptionalFunc) (v : option Value) :=
  {| obj_Type := obj_Type obj; obj_Out := obj_Out obj; obj_last := v;
     obj_field := obj_field obj; obj_result := obj_result obj |}.

Definition set_field (obj : StructLookupOptionalFunc) (f : string) :=
  {| obj_Type := obj_Type obj; obj_Out := obj_Out obj; obj_last := obj_last obj;
     obj_field := f; obj_result := obj_result obj |}.

Definition set_result (obj : StructLookupOptionalFunc) (v : option Value) :=
  {| obj_Type := obj_Type obj; obj_Out := obj_Out obj; obj_last := obj_last obj;
     obj_field := obj_field obj; obj_result := v |}.

(** [obj.last != nil && input.Cmp(obj.last) == nil] *)
Definition unchanged (last : option Value) (input : Value) : bool :=
  match last with
  | Some l => match ValueCmp input l with None => true | Some _ => false end
  | None => false
  end.

(** The body of the [case input, ok := <-obj.init.Input] branch, for a value
    that was received ([ok] true). *)
Definition receive (obj : StructLookupOptionalFunc) (input : Value) : Cycle :=
  if unchanged (obj_last obj) input then
    Continue obj (* value didn't change, skip it *)
  else
    let obj := set_last obj (Some input) in (* store for next *)
    match Struct input with
    | None => Panicked obj
    | Some m =>
      match assoc structLookupOptionalArgNameStruct m with
      | Some (StructValue st) =>
        match assoc structLookupOptionalArgNameField m ≫= Str with
        | Some field =>
          let optional := assoc structLookupOptionalArgNameOptional m in
          if String.eqb field EmptyString then
            Return obj (Some (Errorf "received empty field"))
          else
            let obj :=
              if String.eqb (obj_field obj) EmptyString
              then set_field obj field (* store first field *)
              else obj in
            if negb (String.eqb field (obj_field obj)) then
              Return obj (Some (Errorf "input field changed from: `%s`, to: `%s`"))
            else
              let result :=
                match Lookup st field with
                | Some val => Some val
                | None => optional
                end in
              match obj_result obj with
              | Some r =>
                match result with
                | Some x =>
                  match ValueCmp x r with
                  | None => Continue obj (* result didn't change *)
                  | Some _ => Send (set_result obj result)
                  end
                | None => Panicked obj (* Cmp through a nil interface *)
                end
              | None => Send (set_result obj result) (* store new result *)
              end
        | None => Panicked obj
        end
      | _ => Panicked obj
      end
    end.

(** What the environment does at the suspension points of one cycle.  At the
    first [select] a value arrives, or the input channel is found closed, or
    [ctx.Done()] fires.  [sent] decides the second [select], should the cycle
    reach it: the send goes through, or [ctx.Done()] fires first. *)
Inductive Event :=
| Input (input : Value) (sent : bool)
| InputClosed
| Done.

Inductive Status :=
| Running                        (* waiting in the first select *)
| Returned (err : option Error)
| Crashed.

Record Run := {
  run_status : Status;
  run_obj : StructLookupOptionalFunc;
  run_out : list (option Value); (* the values sent on Output, in order *)
}.

Definition emit (v : option Value) (r : Run) : Run :=
  {| run_status := run_status r; run_obj := run_obj r;
     run_out := v :: run_out r |}.

Definition stop (s : Status) (obj : StructLookupOptionalFunc) : Run :=
  {| run_status := s; run_obj := obj; run_out := [] |}.

(** The [for] loop of [Stream] over a schedule.  When the schedule is used up
    the node is still running, blocked on its input. *)
Fixpoint loop (obj : StructLookupOptionalFunc) (sched : list Event) : Run :=
  match sched with
  | [] => stop Running obj
  | InputClosed :: _ => stop (Returned None) obj (* can't output any more *)
  | Done :: _ => stop (Returned None) obj
  | Input input sent :: rest =>
    match receive obj input with
    | Continue obj' => loop obj' rest
    | Send obj' =>
      if sent then emit (obj_result obj') (loop obj' rest)
      else stop (Returned None) obj'
    | Return obj' err => stop (Returned err) obj'
    | Panicked obj' => stop Crashed obj'
    end
  end.

(** What the node does to its output channel. *)
Inductive Action :=
| ASend (v : option Value)
| AClose.

Definition terminated (s : Status) : bool :=
  match s with Running => false | _ => true end.

(** [Stream]: the loop under [defer close(obj.init.Output)].  The deferred
    close runs when the function returns and when it panics. *)
Definition Stream (obj : StructLookupOptionalFunc) (sched : list Event)
  : Status * StructLookupOptionalFunc * list Action :=
  let r := loop obj sched in
  (run_status r, run_obj r,
   (ASend <$> run_out r) ++ (if terminated (run_status r) then [AClose] else [])).

(** ** Expressions and invariants (package [interfaces]) *)

Module interfaces.

Definition ptr := nat.

(** Modelled from the spec: an expression of the graph, as the generator
    sees it at one invocation.  Expressions are compared and used as map
    keys by pointer; [Type()] and [Value()] either fail ([None]) or give
    what is known statically.  A known type may still be a nil pointer. *)
Record Expr := {
  Expr_ptr : ptr;
  Expr_Type : option (option Type_);
  Expr_Value : option Value;
}.

(** Modelled from the spec: [&interfaces.ExprAny{}], a fresh placeholder
    with nothing known. *)
Definition ExprAny (p : ptr) : Expr :=
  {| Expr_ptr := p; Expr_Type := None; Expr_Value := None |}.

(** What the generator closure captures. *)
Record Closure := {
  expr : Expr;
  dummyStruct : Expr;   (* corresponds to the struct type *)
  dummyField : Expr;    (* corresponds to the field type *)
  dummyOptional : Expr; (* corresponds to the optional type *)
  dummyOut : Expr;      (* corresponds to the out string *)
}.

(** Modelled from the spec: the invariants the file builds or inspects,
    with the fields it sets.  The generator invariant holds its closure in
    defunctionalised form: the captured variables, applied by [fn] below. *)
Inductive Invariant :=
| EqualsInvariant (e : Expr) (typ : Type_)
| EqualityInvariant (e1 e2 : Expr)
| EqualityWrapFuncInvariant (e1 : Expr) (e2Map : gmap string Expr)
    (e2Ord : list string) (e2Out : Expr)
| EqualityWrapStructInvariant (e1 : Expr) (e2Map : gmap string Expr)
    (e2Ord : list string)
| EqualityWrapCallInvariant (e1 e2Func : Expr)
| CallFuncArgsValueInvariant (e func : Expr) (args : list Expr)
| GeneratorInvariant (func : Closure).

End interfaces.
Import interfaces.

(** ** Unification: the generator *)

(** The two unknowns of a generator invocation: [t1], the struct type, and
    [t2], the optional / return type.  Nil until learned. *)
Definition learned : Type := option Type_ * option Type_.

(** [t, exists := typ.Map[field]]; reading a nil map finds nothing. *)
Definition Map_get (m : option (list (string * option Type_))) (k : string)
  : option Type_ * bool :=
  match m with
  | Some l => match assoc k l with
              | Some t => (t, true)
              | None => (None, false)
              end
  | None => (None, false)
  end.

(** [validateArg0] checks: struct T1 *)
Definition validateArg0 (field : string) (typ : option Type_) (st : learned)
  : Result learned :=
  let '(t1, t2) := st in
  match typ with
  | None => Ok (t1, t2) (* unknown so far *)
  | Some T =>
    (* we happen to have a struct! *)
    if negb (Kind_eqb (TKind T) KindStruct) then
      Err (Errorf "unable to build function with 0th arg of kind: %s")
    else
      (* check both Ord and Map for safety *)
      let found := existsb (fun s => String.eqb s field) (TOrd T) in
      let '(t, exists_) := Map_get (TMap T) field in (* type found is T2 *)
      t2 ← (if negb (String.eqb field EmptyString) then
              _ ← (if negb exists_ || negb found then
                     Ok tt (* might be using optional arg *)
                   else
                     match t2, Cmp t t2 with
                     | Some _, Some err =>
                       Err (Wrapf err "input type was inconsistent")
                     | _, _ => Ok tt
                     end);
              Ok t (* learn! *)
            else Ok t2);
      match t1, Cmp (Some T) t1 with
      | Some _, Some err => Err (Wrapf err "input type was inconsistent")
      | _, _ => Ok (Some T, t2) (* learn! *)
      end
  end.

Definition validateArg2OrOut (typ : option Type_) (st : learned)
  : Result learned :=
  let '(t1, t2) := st in
  match typ with
  | None => Ok (t1, t2) (* unknown so far *)
  | Some T =>
    match t2, Cmp (Some T) t2 with
    | Some _, Some err => Err (Wrapf err "input type was inconsistent")
    | _, _ => Ok (t1, Some T) (* learn! *)
    end
  end.

(** One of the six guarded reads of a type: when the channel [o] knows a type
    the validator runs on it, and its error is wrapped and returned. *)
Definition ifKnown (o : option (option Type_))
    (validate : option Type_ → learned → Result learned) (msg : string)
    (st : learned) : Result learned :=
  match o with
  | Some typ =>
    match validate typ st with
    | Err err => Err (Wrapf err msg)
    | r => r
    end
  | None => Ok st
  end.

(** The loop over [t1.Ord] that builds [mapped] and [ordered]; every member
    gets a fresh placeholder, allocated at [heap]. *)
Fixpoint mapFields (c : Closure) (field : string) (heap : ptr)
    (ord : list string) (mapped : gmap string Expr) (ordered : list string)
  : gmap string Expr * list string :=
  match ord with
  | [] => (mapped, ordered)
  | x :: ord' =>
    let unusedField := ExprAny heap in (* we don't need to solve it *)
    let mapped := <[x := unusedField]> mapped in
    let mapped := if String.eqb x field (* the one we care about *)
                  then <[x := dummyOut c]> mapped else mapped in
    mapFields c field (S heap) ord' mapped (ordered ++ [x])
  end.

(** The invariants added when [t1] is known. *)
Definition structInvariants (c : Closure) (heap : ptr) (field : string)
    (t1 : option Type_) : list Invariant :=
  match t1 with
  | None => []
  | Some T =>
    let '(mapped, ordered) := mapFields c field heap (TOrd T) ∅ [] in
    let mapped := <[field := dummyOut c]> mapped in (* redundant *)
    let invar := EqualityWrapStructInvariant (dummyStruct c) mapped ordered in
    (* only add this if the field actually exists, otherwise ignore it *)
    EqualsInvariant (dummyStruct c) T ::
    (if negb (String.eqb field EmptyString) && snd (Map_get (TMap T) field)
     then [invar] else [])
  end.

(** The invariants added when [t2] is known. *)
Definition optionalInvariants (c : Closure) (t2 : option Type_)
  : list Invariant :=
  match t2 with
  | None => []
  | Some T => [EqualsInvariant (dummyOptional c) T;
               EqualsInvariant (dummyOut c) T]
  end.

(** [cfavInvar.Args[1].Value()]: the field name when it is known
    statically, the empty string when it is not. *)
Definition staticField (a1 : Expr) : Result string :=
  match Expr_Value a1 with (* is it known? *)
  | Some value =>
    if negb (Kind_eqb (TKind (ValueType value)) KindStr) then
      Err (Errorf "unable to build function with 1st arg of kind: %s")
    else
      match Str value with Some s => Ok s | None => Panic end
  | None => Ok EmptyString
  end.

(** The six guarded reads, in the order of the source: the type of the
    first argument and the solver's type for it, then the same for the
    third argument and for the call itself.  [t1] and [t2] start nil. *)
Definition learn (field : string) (e a0 a2 : Expr)
    (solved : gmap ptr (option Type_)) : Result learned :=
  st ← ifKnown (Expr_Type a0) (validateArg0 field)
         "first struct arg type is inconsistent" (None, None);
  st ← ifKnown (solved !! Expr_ptr a0) (validateArg0 field)
         "first struct arg type is inconsistent" st;
  st ← ifKnown (Expr_Type a2) validateArg2OrOut
         "third struct arg type is inconsistent" st;
  st ← ifKnown (solved !! Expr_ptr a2) validateArg2OrOut
         "third struct arg type is inconsistent" st;
  (* look at the return type too (if known) *)
  st ← ifKnown (Expr_Type e) validateArg2OrOut
         "third struct arg type is inconsistent" st;
  ifKnown (solved !! Expr_ptr e) validateArg2OrOut
    "third struct arg type is inconsistent" st.

(** What the generator does once it has found the invariant that maps the
    call [e], with arguments [args], to this function. *)
Definition generate (c : Closure) (heap : ptr) (e : Expr) (args : list Expr)
    (solved : gmap ptr (option Type_)) : Result (list Invariant) :=
  if negb (length args =? 3)%nat then
    Err (Errorf "unable to build function with %d args")
  else
    a0 ← index args 0;
    a1 ← index args 1;
    a2 ← index args 2;
    let invariants :=
      [EqualityInvariant e (dummyOut c);
       EqualityInvariant a0 (dummyStruct c);
       EqualityInvariant a1 (dummyField c);
       EqualityInvariant a2 (dummyOptional c);
       EqualsInvariant a1 TypeStr] in
    (* not necessary for the field to be known or be static! *)
    field ← staticField a1;
    '(t1, t2) ← learn field e a0 a2 solved;
    Ok (invariants
          ++ structInvariants c heap field t1
          ++ optionalInvariants c t2
          ++ [EqualityWrapCallInvariant e (expr c)]).

(** The generator function: it searches the invariants for the one that maps
    this function to its call.  [heap] is the next free pointer. *)
Fixpoint fn (c : Closure) (heap : ptr) (fnInvariants : list Invariant)
    (solved : gmap ptr (option Type_)) : Result (list Invariant) :=
  match fnInvariants with
  | [] =>
    (* we couldn't tell the solver anything it didn't already know *)
    Err (Errorf "couldn't generate new invariants")
  | CallFuncArgsValueInvariant e func args :: rest =>
    if negb (Expr_ptr func =? Expr_ptr (expr c))%nat then
      fn c heap rest solved
    else
      generate c heap e args solved
  | _ :: rest => fn c heap rest solved
  end.

(** [Unify] returns the list of invariants that this func produces.  The
    four placeholders are allocated at [heap]. *)
Definition Unify (obj : StructLookupOptionalFunc) (heap : ptr) (e : Expr)
  : Result (list Invariant) :=
  structName ← ArgGen 0;
  fieldName ← ArgGen 1;
  optionalName ← ArgGen 2;
  let c := {| expr := e;
              dummyStruct := ExprAny heap;
              dummyField := ExprAny (heap + 1);
              dummyOptional := ExprAny (heap + 2);
              dummyOut := ExprAny (heap + 3) |} in
  let mapped : gmap string Expr :=
    <[optionalName := dummyOptional c]>
      (<[fieldName := dummyField c]> (<[structName := dummyStruct c]> ∅)) in
  let ordered := [structName; fieldName; optionalName] in
  Ok [EqualsInvariant (dummyField c) TypeStr;
      EqualityInvariant (dummyOptional c) (dummyOut c);
      EqualityWrapFuncInvariant e mapped ordered (dummyOut c);
      GeneratorInvariant c].

(** * Vocabulary of the properties *)

(** ** Signatures *)

(** The type of the [i]-th argument of a signature, nil when the map is nil,
    has no entry under the name, or holds a nil pointer there. *)
Definition arg (typ : Type_) (i : nat) : option Type_ :=
  match TOrd typ !! i, TMap typ with
  | Some k, Some m => match assoc k m with Some t => t | None => None end
  | _, _ => None
  end.

(** What [Build] rejects. *)
Definition rejected (typ : Type_) : Prop :=
  TKind typ ≠ KindFunc
  ∨ length (TOrd typ) ≠ 3
  ∨ TOut typ = None
  ∨ arg typ 0 = None ∨ arg typ 1 = None ∨ arg typ 2 = None
  ∨ Cmp (arg typ 1) (Some TypeStr) ≠ None
  ∨ Cmp (arg typ 2) (TOut typ) ≠ None.

(** ** Values and inputs *)

(** Induction on values, through the members of a struct value. *)
Section Value_induction.
Variable P : Value → Prop.
Hypothesis Hbool : ∀ b, P (BoolValue b).
Hypothesis Hstr : ∀ s, P (StrValue s).
Hypothesis Hint : ∀ z, P (IntValue z).
Hypothesis Hstruct : ∀ V, Forall (fun kv => P (snd kv)) V → P (StructValue V).

Fixpoint Value_ind (v : Value) : P v :=
  match v with
  | BoolValue b => Hbool b
  | StrValue s => Hstr s
  | IntValue z => Hint z
  | StructValue V =>
    Hstruct V
      ((fix go (l : list (string * Value)) : Forall (fun kv => P (snd kv)) l :=
          match l with
          | [] => List.Forall_nil _
          | kv :: l' => List.Forall_cons _ kv l' (Value_ind (snd kv)) (go l')
          end) V)
  end.
End Value_induction.

(** The selector name an input carries, when it carries one. *)
Definition selector (input : Value) : option string :=
  match Struct input with
  | Some m => assoc structLookupOptionalArgNameField m ≫= Str
  | None => None
  end.

(** A well-formed input: a struct value with the container [st], the selector
    name [f] and the fallback [o] under the three argument names. *)
Definition aggregate (input : Value) (st : list (string * Value)) (f : string)
    (o : Value) : Prop :=
  ∃ m, Struct input = Some m
       ∧ assoc structLookupOptionalArgNameStruct m = Some (StructValue st)
       ∧ assoc structLookupOptionalArgNameField m = Some (StrValue f)
       ∧ assoc structLookupOptionalArgNameOptional m = Some o.

(** The value the node computes for a well-formed input. *)
Definition lookup_or (st : list (string * Value)) (f : string) (o : Value)
  : Value :=
  match Lookup st f with
  | Some val => val
  | None => o
  end.

(** The node, while it runs, remembers an input that carried the pinned,
    non-empty selector name. *)
Definition pinned (obj : StructLookupOptionalFunc) : Prop :=
  match obj_last obj with
  | Some l => selector l = Some (obj_field obj) ∧ obj_field obj ≠ EmptyString
  | None => True
  end.

(** ** Runs of the streaming loop *)

(** Running a schedule in two parts. *)
Definition and_then (r1 : Run) (s2 : list Event) : Run :=
  match run_status r1 with
  | Running =>
    let r2 := loop (run_obj r1) s2 in
    {| run_status := run_status r2; run_obj := run_obj r2;
       run_out := run_out r1 ++ run_out r2 |}
  | _ => r1
  end.

(** Whether an action on the output channel is the close. *)
Definition is_close (a : Action) : bool :=
  match a with AClose => true | ASend _ => false end.

(** ** Observations of the generator *)

(** One observation of a candidate type: for the struct type [t1], with the
    member type it brings for [t2], or for the optional / return type [t2]. *)
Inductive Obs :=
| ObsArg0 (typ : option Type_)
| ObsArg2OrOut (typ : option Type_).

(** The validator an observation goes through. *)
Definition validate (field : string) (ob : Obs) (st : learned) : Result learned :=
  match ob with
  | ObsArg0 typ => validateArg0 field typ st
  | ObsArg2OrOut typ => validateArg2OrOut typ st
  end.

(** A sequence of observations, up to the first error. *)
Fixpoint validate_all (field : string) (obs : list Obs) (st : learned)
  : Result learned :=
  match obs with
  | [] => Ok st
  | ob :: obs' => st' ← validate field ob st; validate_all field obs' st'
  end.

(** The channels that know a type, in order. *)
Definition known (os : list (option (option Type_))) : list (option Type_) :=
  omap id os.

(** What is observed for the first argument: its declared type, then the
    solver's. *)
Definition observations0 (a0 : Expr) (solved : gmap ptr (option Type_))
  : list Obs :=
  ObsArg0 <$> known [Expr_Type a0; solved !! Expr_ptr a0].

(** What is observed for the third argument and for the call. *)
Definition observations2 (e a2 : Expr) (solved : gmap ptr (option Type_))
  : list Obs :=
  ObsArg2OrOut <$> known [Expr_Type a2; solved !! Expr_ptr a2;
                          Expr_Type e; solved !! Expr_ptr e].

(** The observations a generator invocation makes, in the order it makes
    them. *)
Definition observations (e a0 a2 : Expr) (solved : gmap ptr (option Type_))
  : list Obs :=
  observations0 a0 solved ++ observations2 e a2 solved.

(** Whether the member name occurs in [Ord]. *)
Definition found (T : Type_) (field : string) : bool :=
  existsb (fun s => String.eqb s field) (TOrd T).


(** A well-formed struct type: the names in [Ord] are the keys of [Map], and
    no member is a nil pointer. *)
Definition wf_struct (T : Type_) : bool :=
  match TMap T with
  | Some m =>
    forallb (fun k => match assoc k m with Some (Some _) => true | _ => false end)
            (TOrd T)
    && forallb (fun kt => found T (fst kt)) m
  | None => false
  end.




(** The member is not in the struct's map. *)
Definition absent (T : Type_) (field : string) : Prop :=
  snd (Map_get (TMap T) field) = false.


(** An invariant [fn] passes over: anything but the invariant that maps
    this function to its call. *)
Definition other_call (c : Closure) (inv : Invariant) : Prop :=
  match inv with
  | CallFuncArgsValueInvariant _ func _ => Expr_ptr func ≠ Expr_ptr (expr c)
  | _ => True
  end.

(** Whether an invariant is the decomposition of a struct into members. *)
Definition is_wrap_struct (inv : Invariant) : bool :=
  match inv with EqualityWrapStructInvariant _ _ _ => true | _ => false end.

(** ** Further vocabulary: the node and its outputs *)

(** The node a cycle leaves behind, whatever its outcome. *)
Definition cycle_obj (c : Cycle) : StructLookupOptionalFunc :=
  match c with
  | Continue obj | Send obj | Return obj _ | Panicked obj => obj
  end.

(** What the loop computes from an input alone, when the input has a struct
    under [struct] and a string under [field]: the member under that name,
    else whatever is under [optional]. *)
Definition answer (input : Value) : option (option Value) :=
  match Struct input with
  | Some m =>
    match assoc structLookupOptionalArgNameStruct m,
          assoc structLookupOptionalArgNameField m ≫= Str with
    | Some (StructValue st), Some f =>
      Some (match Lookup st f with
            | Some val => Some val
            | None => assoc structLookupOptionalArgNameOptional m
            end)
    | _, _ => None
    end
  | None => None
  end.

(** The answers to the inputs of a schedule, in order. *)
Definition answers (sched : list Event) : list (option Value) :=
  omap (fun ev => match ev with Input input _ => answer input | _ => None end)
       sched.


(** The two errors the loop returns. *)
Definition errEmptyField : Error := Errorf "received empty field".
Definition errFieldChanged : Error :=
  Errorf "input field changed from: `%s`, to: `%s`".

(** ** Further vocabulary: the generator *)

(** The five relations every successful generator run starts with. *)
Definition callInvariants (c : Closure) (e a0 a1 a2 : Expr) : list Invariant :=
  [EqualityInvariant e (dummyOut c);
   EqualityInvariant a0 (dummyStruct c);
   EqualityInvariant a1 (dummyField c);
   EqualityInvariant a2 (dummyOptional c);
   EqualsInvariant a1 TypeStr].

(** The error of a generator run that found nothing to go on. *)
Definition errNoProgress : Error := Errorf "couldn't generate new invariants".

(** ** Further vocabulary: what an observation leaves behind *)






(** ** Examples *)

(** The container type [{a: Int, b: Str}] of the examples, a value of it,
    and the input built from it for a selector name and a fallback. *)
Definition ex_type : Type_ := NewStruct [("a", TypeInt); ("b", TypeStr)].

Definition ex_struct : list (string * Value) :=
  [("a", IntValue 7); ("b", StrValue "x")].

Definition ex_input (f : string) (o : Value) : Value :=
  StructValue [("struct", StructValue ex_struct);
               ("field", StrValue f);
               ("optional", o)].

(** The captured variables of a generator of the examples. *)
Definition ex_closure : Closure :=
  {| expr := ExprAny 0; dummyStruct := ExprAny 10; dummyField := ExprAny 11;
     dummyOptional := ExprAny 12; dummyOut := ExprAny 13 |}.

(** An expression with a declared type and, possibly, a static value. *)
Definition ex_arg (p : ptr) (typ : Type_) (val : option Value) : Expr :=
  {| Expr_ptr := p; Expr_Type := Some (Some typ); Expr_Value := val |}.

(** * Properties *)

(** ** The argument names *)

Lemma ArgGen_in_range :
  ArgGen 0 = Ok "struct" ∧ ArgGen 1 = Ok "field" ∧ ArgGen 2 = Ok "optional".
Proof. repeat split. Qed.

Lemma ArgGen_above (i : Z) :
  (3 ≤ i)%Z → ArgGen i = Err (Errorf "index %d exceeds arg length of %d").
Proof.
  intros Hi. unfold ArgGen. simpl length.
  destruct (Z.geb_spec i (Z.of_nat 3)) as [_|Hlt]; [reflexivity | lia].
Qed.

Lemma ArgGen_below (i : Z) : (i < 0)%Z → ArgGen i = Panic.
Proof.
  intros Hi. unfold ArgGen, index. simpl length.
  destruct (Z.geb_spec i (Z.of_nat 3)) as [Hge|_]; [lia|].
  destruct (Z.ltb_spec i 0) as [_|Hge]; [reflexivity | lia].
Qed.

(** C2, at the index where it fails: the guard of [ArgGen] tests only the
    upper bound, so the index -1 reaches the slice read and panics; no error
    is returned. *)
Theorem ArgGen_negative_index :
  ArgGen (-1) = Panic ∧ ∀ e, ArgGen (-1) ≠ Err e.
Proof. split; [reflexivity | intros e He; discriminate He]. Qed.

(** [Unify] never fails: the three argument names exist, and it hands the
    solver three invariants and its generator. *)
Lemma Unify_succeeds obj heap e :
  ∃ c m, Unify obj heap e
         = Ok [EqualsInvariant (dummyField c) TypeStr;
               EqualityInvariant (dummyOptional c) (dummyOut c);
               EqualityWrapFuncInvariant e m ["struct"; "field"; "optional"]
                 (dummyOut c);
               GeneratorInvariant c]
         ∧ expr c = e.
Proof. eexists _, _. split; reflexivity. Qed.

(** ** Build and Validate *)

(** Before [Build], [Info] reports a nil signature and the validation error. *)
Lemma GetInfo_before_Build :
  GetInfo new_func
  = Ok {| Pure := true; Memo := false; Sig := None;
          InfoErr := Some (Errorf "type is still unspecified") |}.
Proof. reflexivity. Qed.

Lemma Kind_eqb_eq (a b : Kind) : Kind_eqb a b = true ↔ a = b.
Proof. destruct a, b; simpl; split; congruence. Qed.

Lemma Kind_eqb_neq (a b : Kind) : Kind_eqb a b = false ↔ a ≠ b.
Proof. destruct a, b; simpl; split; congruence. Qed.

(** Pick the disjunct that holds by computation. *)
Ltac choose :=
  first [ solve [simpl in *; first [congruence | lia]]
        | left; choose
        | right; choose ].

Lemma Build_cases (obj : StructLookupOptionalFunc) (typ : Type_) :
  (rejected typ ∧ ∃ e, Build obj typ = Err e)
  ∨ (¬ rejected typ ∧ ∃ tStruct out,
       arg typ 0 = Some tStruct ∧ TOut typ = Some out ∧
       let obj' := {| obj_Type := Some tStruct; obj_Out := Some out;
                      obj_last := obj_last obj; obj_field := obj_field obj;
                      obj_result := obj_result obj |} in
       ∃ s, sig obj' = Ok s ∧ Build obj typ = Ok (obj', s)).
Proof.
  unfold Build, rejected, arg.
  destruct typ as [k m ord out]; simpl.
  destruct (Kind_eqb k KindFunc) eqn:Hk; simpl;
    [apply Kind_eqb_eq in Hk | apply Kind_eqb_neq in Hk; left; split; [choose|eauto]].
  destruct ord as [|k0 [|k1 [|k2 [|k3 ord]]]]; simpl;
    try (left; split; [choose | eauto]).
  destruct out as [out|]; [|left; split; [choose | eauto]].
  destruct m as [m|]; simpl; [|left; split; [choose | eauto]].
  destruct (assoc k0 m) as [[t0|]|]; simpl; try (left; split; [choose | eauto]).
  destruct (assoc k1 m) as [[t1|]|]; simpl; try (left; split; [choose | eauto]).
  destruct (TypeCmp t1 TypeStr) as [e1|] eqn:H1; simpl;
    [left; split; [choose | eauto]|].
  destruct (assoc k2 m) as [[t2|]|]; simpl; try (left; split; [choose | eauto]).
  destruct (TypeCmp t2 out) as [e2|] eqn:H2; simpl;
    [left; split; [choose | eauto]|].
  right. split.
  - intros [?|[?|[?|[?|[?|[?|[?|?]]]]]]]; simpl in *; congruence.
  - eauto 10.
Qed.

(** C3: [Build] returns an error whenever the signature is not of function
    kind, does not have three arguments, lacks an argument type or the
    return type, has a selector argument whose type does not compare equal
    to str, or a fallback argument whose type does not compare equal to the
    return type.  On every other signature it succeeds, and when it succeeds
    the node holds the first argument's type and the return type, its other
    fields untouched. *)
Theorem Build_checks_signature (obj : StructLookupOptionalFunc) (typ : Type_) :
  (rejected typ → ∃ e, Build obj typ = Err e)
  ∧ (¬ rejected typ →
     ∃ tStruct out s,
       arg typ 0 = Some tStruct ∧ TOut typ = Some out
       ∧ Build obj typ
         = Ok ({| obj_Type := Some tStruct; obj_Out := Some out;
                  obj_last := obj_last obj; obj_field := obj_field obj;
                  obj_result := obj_result obj |}, s))
  ∧ (∀ obj' s, Build obj typ = Ok (obj', s) →
       ¬ rejected typ
       ∧ obj_Type obj' = arg typ 0 ∧ obj_Type obj' ≠ None
       ∧ obj_Out obj' = TOut typ ∧ obj_Out obj' ≠ None
       ∧ obj_last obj' = obj_last obj ∧ obj_field obj' = obj_field obj
       ∧ obj_result obj' = obj_result obj
       ∧ sig obj' = Ok s).
Proof.
  destruct (Build_cases obj typ) as [[Hr [e He]]|[Hr (t & out & H0 & Ho & Hs)]].
  - split; [eauto|]. split; [contradiction|]. intros obj' s Hb. congruence.
  - simpl in Hs. destruct Hs as (s & Hsig & Hb). split; [tauto|].
    split; [intros _; exists t, out, s; auto|].
    intros obj' s' Hb'. rewrite Hb in Hb'. injection Hb' as <- <-.
    simpl. rewrite H0, Ho. repeat split; congruence.
Qed.

Lemma Build_checks_signature_witness :
  let bad := NewFunc [("struct", ex_type); ("field", TypeInt);
                      ("optional", TypeInt)] TypeInt in
  let good := NewFunc [("struct", ex_type); ("field", TypeStr);
                       ("optional", TypeInt)] TypeInt in
  (rejected bad ∧ ∃ e, Build new_func bad = Err e)
  ∧ (¬ rejected good
     ∧ ∃ tStruct out s,
         arg good 0 = Some tStruct ∧ TOut good = Some out
         ∧ Build new_func good
           = Ok ({| obj_Type := Some tStruct; obj_Out := Some out;
                    obj_last := None; obj_field := EmptyString;
                    obj_result := None |}, s))
  ∧ (∃ obj' s, Build new_func good = Ok (obj', s)
               ∧ obj_Type obj' = Some ex_type ∧ obj_Out obj' = Some TypeInt).
Proof.
  assert (Hbad : rejected (NewFunc [("struct", ex_type); ("field", TypeInt);
                                    ("optional", TypeInt)] TypeInt)).
  { do 6 right. left. vm_compute. discriminate. }
  assert (Hgood : ¬ rejected (NewFunc [("struct", ex_type); ("field", TypeStr);
                                       ("optional", TypeInt)] TypeInt)).
  { intros [H|[H|[H|[H|[H|[H|[H|H]]]]]]]; vm_compute in H;
      first [discriminate H | apply H; reflexivity]. }
  split; [|split].
  - split; [exact Hbad|].
    exact (proj1 (Build_checks_signature new_func _) Hbad).
  - split; [exact Hgood|].
    exact (proj1 (proj2 (Build_checks_signature new_func _)) Hgood).
  - eexists _, _. split; [reflexivity|].
    destruct (proj2 (proj2 (Build_checks_signature new_func
                (NewFunc [("struct", ex_type); ("field", TypeStr);
                          ("optional", TypeInt)] TypeInt))) _ _ eq_refl)
      as (_ & Ht & _ & Ho & _).
    split; [exact Ht | exact Ho].
Defined.

Lemma Validate_cases (obj : StructLookupOptionalFunc) :
  Validate obj ≠ None ↔
  (obj_Type obj = None
   ∨ (∃ t, obj_Type obj = Some t ∧ TKind t ≠ KindStruct)
   ∨ obj_Out obj = None).
Proof.
  unfold Validate. destruct (obj_Type obj) as [t|]; [|split; eauto; discriminate].
  destruct (Kind_eqb (TKind t) KindStruct) eqn:Hk; simpl.
  - apply Kind_eqb_eq in Hk. destruct (obj_Out obj) as [o|].
    + split; [congruence|].
      intros [?|[(t' & Ht & Hn)|?]]; try discriminate. congruence.
    + split; [eauto | discriminate].
  - apply Kind_eqb_neq in Hk. split; [eauto|discriminate].
Qed.

(** C9: [Build] does not look at the kind of the first argument.  A
    signature whose container argument is an int is built without error, and
    it is [Validate] that then rejects the node; [Validate] errors exactly
    when the recorded container type is nil or not a struct, or the recorded
    return type is nil. *)
Theorem Build_accepts_non_struct_container :
  (∃ typ obj' s,
      arg typ 0 = Some TypeInt ∧ TKind TypeInt ≠ KindStruct
      ∧ arg typ 1 = Some TypeStr ∧ arg typ 2 = TOut typ
      ∧ Build new_func typ = Ok (obj', s)
      ∧ obj_Type obj' = Some TypeInt
      ∧ Validate obj' = Some (Errorf "type must be a kind of struct"))
  ∧ (∀ obj, (obj_Type obj = None
             ∨ (∃ t, obj_Type obj = Some t ∧ TKind t ≠ KindStruct)
             ∨ obj_Out obj = None) ↔ Validate obj ≠ None).
Proof.
  split.
  - exists (NewFunc [("struct", TypeInt); ("field", TypeStr);
                     ("optional", TypeBool)] TypeBool).
    eexists _, _. repeat split; try discriminate.
  - intros obj. symmetry. apply Validate_cases.
Qed.

Lemma Build_accepts_non_struct_container_witness :
  Validate new_func ≠ None.
Proof.
  apply (proj1 (proj2 Build_accepts_non_struct_container new_func)).
  left. reflexivity.
Defined.

(** ** Structural comparison of values *)

Lemma Value_eqb_eq (a b : Value) : Value_eqb a b = true ↔ a = b.
Proof.
  revert b. induction a as [x|x|x|V IH] using Value_ind; intros [y|y|y|W]; simpl;
    try (split; [discriminate | congruence]).
  - rewrite Bool.eqb_true_iff. split; congruence.
  - rewrite String.eqb_eq. split; congruence.
  - rewrite Z.eqb_eq. split; congruence.
  - revert W. induction IH as [|[k v] V Hv _ IHV]; intros [|[k' w] W];
      try (split; [discriminate | congruence]); [tauto|].
    simpl in Hv. rewrite !andb_true_iff, String.eqb_eq, Hv, IHV.
    split; [intros [[-> ->] [= ->]]; reflexivity | intros [= -> -> ->]; tauto].
Qed.

Lemma ValueCmp_nil (a b : Value) : ValueCmp a b = None ↔ a = b.
Proof.
  unfold ValueCmp. destruct (Value_eqb a b) eqn:E.
  - apply Value_eqb_eq in E. tauto.
  - split; [discriminate|]. intros ->.
    assert (Value_eqb b b = true) by (apply Value_eqb_eq; reflexivity). congruence.
Qed.

Lemma unchanged_true (last : option Value) (input : Value) :
  unchanged last input = true ↔ last = Some input.
Proof.
  unfold unchanged. destruct last as [l|]; [|split; discriminate].
  destruct (ValueCmp input l) eqn:E.
  - split; [discriminate|]. intros [= ->].
    assert (ValueCmp input input = None) by (apply ValueCmp_nil; reflexivity).
    congruence.
  - apply ValueCmp_nil in E. subst. tauto.
Qed.

(** ** The streaming loop *)

Lemma aggregate_selector input st f o :
  aggregate input st f o → selector input = Some f.
Proof.
  intros (m & Hm & _ & Hf & _). unfold selector. rewrite Hm. simpl.
  rewrite Hf. reflexivity.
Qed.

Lemma eqb_empty (s : string) : String.eqb s EmptyString = true ↔ s = EmptyString.
Proof. apply String.eqb_eq. Qed.

(** What [receive] does on a well-formed input that is not a repetition of
    the last one. *)
Lemma receive_aggregate obj input st f o :
  aggregate input st f o →
  unchanged (obj_last obj) input = false →
  let obj1 := set_last obj (Some input) in
  let obj2 := if String.eqb (obj_field obj) EmptyString
              then set_field obj1 f else obj1 in
  receive obj input =
    if String.eqb f EmptyString then
      Return obj1 (Some (Errorf "received empty field"))
    else if negb (String.eqb f (obj_field obj2)) then
      Return obj2 (Some (Errorf "input field changed from: `%s`, to: `%s`"))
    else
      match obj_result obj with
      | Some r =>
        match ValueCmp (lookup_or st f o) r with
        | None => Continue obj2
        | Some _ => Send (set_result obj2 (Some (lookup_or st f o)))
        end
      | None => Send (set_result obj2 (Some (lookup_or st f o)))
      end.
Proof.
  intros (m & Hm & Hs & Hf & Ho) Hu. unfold receive. rewrite Hu, Hm, Hs, Hf.
  simpl. rewrite Ho. destruct (String.eqb f EmptyString); [reflexivity|].
  unfold lookup_or.
  destruct (String.eqb (obj_field obj) EmptyString); simpl;
    (destruct (negb _); [reflexivity|]);
    destruct (obj_result obj); destruct (Lookup st f); reflexivity.
Qed.

Lemma receive_keeps_pinned obj input obj' :
  pinned obj →
  receive obj input = Continue obj' ∨ receive obj input = Send obj' →
  pinned obj'
  ∧ obj_last obj' = Some input
  ∧ (obj_field obj ≠ EmptyString → obj_field obj' = obj_field obj).
Proof.
  intros Hp Hr. unfold receive in Hr.
  destruct (unchanged (obj_last obj) input) eqn:Hu.
  { apply unchanged_true in Hu.
    destruct Hr as [[= <-]|?]; [|discriminate]. tauto. }
  destruct (Struct input) as [m|] eqn:Hm; [|destruct Hr; discriminate].
  destruct (assoc structLookupOptionalArgNameStruct m) as [[| | |st]|];
    try (destruct Hr; discriminate).
  destruct (assoc structLookupOptionalArgNameField m ≫= Str) as [f|] eqn:Hfm;
    [|destruct Hr; discriminate].
  assert (Hsel : selector input = Some f) by (unfold selector; rewrite Hm; exact Hfm).
  destruct (String.eqb f EmptyString) eqn:Hf; [destruct Hr; discriminate|].
  assert (f ≠ EmptyString) by (intros ->; discriminate Hf).
  simpl in Hr. unfold pinned.
  destruct (String.eqb (obj_field obj) EmptyString) eqn:He; simpl in Hr.
  - apply eqb_empty in He.
    rewrite String.eqb_refl in Hr. simpl in Hr.
    destruct (obj_result obj) as [r|];
      [destruct (Lookup st f), (assoc structLookupOptionalArgNameOptional m);
       try (destruct Hr; discriminate);
       destruct (ValueCmp _ r)|];
      (destruct Hr as [[= <-]|[= <-]]; simpl; tauto).
  - destruct (String.eqb f (obj_field obj)) eqn:Hff; simpl in Hr;
      [|destruct Hr; discriminate].
    apply String.eqb_eq in Hff. subst f.
    destruct (obj_result obj) as [r|];
      [destruct (Lookup st _), (assoc structLookupOptionalArgNameOptional m);
       try (destruct Hr; discriminate);
       destruct (ValueCmp _ r)|];
      (destruct Hr as [[= <-]|[= <-]]; simpl; tauto).
Qed.

Lemma loop_app obj s1 s2 : loop obj (s1 ++ s2) = and_then (loop obj s1) s2.
Proof.
  revert obj. induction s1 as [|[input sent| |] s1 IH]; intros obj; simpl;
    try reflexivity.
  - unfold and_then. simpl. destruct (loop obj s2); reflexivity.
  - destruct (receive obj input) as [obj'|obj'|obj' err|obj']; try reflexivity.
    + apply IH.
    + destruct sent; [|reflexivity]. rewrite IH. unfold and_then, emit. simpl.
      destruct (loop obj' s1) as [st ob out]; simpl. destruct st; reflexivity.
Qed.

Lemma receive_result obj input obj' :
  (receive obj input = Continue obj' → obj_result obj' = obj_result obj).
Proof.
  unfold receive. destruct (unchanged _ _); [intros [= <-]; reflexivity|].
  destruct (Struct input) as [m|]; [|discriminate].
  destruct (assoc structLookupOptionalArgNameStruct m) as [[| | |st]|];
    try discriminate.
  destruct (assoc structLookupOptionalArgNameField m ≫= Str) as [f|];
    [|discriminate].
  destruct (String.eqb f EmptyString); [discriminate|].
  destruct (negb _); [discriminate|]. simpl.
  destruct (String.eqb (obj_field obj) EmptyString); simpl;
    (destruct (obj_result _) as [r|] eqn:Hres; [|discriminate]);
    (destruct (match Lookup st f with Some _ => _ | None => _ end);
       [|discriminate]);
    (destruct (ValueCmp _ r); [discriminate|]); intros [= <-];
    simpl in *; congruence.
Qed.

(** While the node runs it stays pinned to the name it has, and its stored
    result is the last value it sent. *)
Lemma loop_running obj sched :
  pinned obj →
  run_status (loop obj sched) = Running →
  let r := loop obj sched in
  pinned (run_obj r)
  ∧ (obj_field obj ≠ EmptyString → obj_field (run_obj r) = obj_field obj)
  ∧ obj_result (run_obj r) = default (obj_result obj) (last (run_out r)).
Proof.
  revert obj. induction sched as [|[input sent| |] sched IH]; intros obj Hp;
    simpl; try discriminate; [tauto|].
  destruct (receive obj input) as [obj'|obj'|obj' err|obj'] eqn:Hr;
    try discriminate.
  - intros Hs.
    destruct (receive_keeps_pinned obj input obj' Hp (or_introl Hr))
      as (Hp' & _ & Hf).
    destruct (IH obj' Hp' Hs) as (H1 & H2 & H3).
    rewrite (receive_result _ _ _ Hr) in H3.
    repeat split; try assumption.
    intros Hne. destruct (String.eqb_spec (obj_field obj') EmptyString) as [E|E].
    + rewrite Hf in E by assumption. contradiction.
    + rewrite H2 by assumption. auto.
  - destruct sent; [|discriminate]. simpl. intros Hs.
    destruct (receive_keeps_pinned obj input obj' Hp (or_intror Hr))
      as (Hp' & _ & Hf).
    destruct (IH obj' Hp' Hs) as (H1 & H2 & H3).
    repeat split; try assumption.
    + intros Hne. destruct (String.eqb_spec (obj_field obj') EmptyString) as [E|E].
      * rewrite Hf in E by assumption. contradiction.
      * rewrite H2 by assumption. auto.
    + rewrite H3, last_cons. destruct (last (run_out (loop obj' sched))); reflexivity.
Qed.

Lemma not_unchanged obj input st f o :
  pinned obj → aggregate input st f o →
  f = EmptyString ∨ f ≠ obj_field obj →
  unchanged (obj_last obj) input = false.
Proof.
  intros Hp Ha Hf. destruct (unchanged (obj_last obj) input) eqn:Hu; [|reflexivity].
  apply unchanged_true in Hu. unfold pinned in Hp. rewrite Hu in Hp.
  rewrite (aggregate_selector _ _ _ _ Ha) in Hp. destruct Hp as [[= Heq] Hne].
  destruct Hf; congruence.
Qed.

Lemma loop_snoc obj pre ev rest :
  run_status (loop obj pre) = Running →
  run_status (loop obj (pre ++ ev :: rest))
  = run_status (loop (run_obj (loop obj pre)) (ev :: rest))
  ∧ run_obj (loop obj (pre ++ ev :: rest))
  = run_obj (loop (run_obj (loop obj pre)) (ev :: rest))
  ∧ run_out (loop obj (pre ++ ev :: rest))
  = run_out (loop obj pre) ++ run_out (loop (run_obj (loop obj pre)) (ev :: rest)).
Proof.
  intros Hs. rewrite loop_app. unfold and_then. rewrite Hs. simpl. tauto.
Qed.

(** C4: the first non-empty selector name pins the node.  For a node started
    fresh and still running after the schedule [pre], a well-formed input
    with an empty selector name ends the loop with an error (and so does the
    very first input, [pre] being empty); an input with a non-empty name
    other than the pinned one ends it with an error; an input with the
    pinned name, or the first name when none is pinned, is processed without
    error and leaves the node pinned to it; and a pinned name stays for as
    long as the node runs. *)
Theorem Stream_pins_selector obj0 pre input sent rest st f o :
  obj_last obj0 = None →
  obj_field obj0 = EmptyString →
  run_status (loop obj0 pre) = Running →
  aggregate input st f o →
  let obj := run_obj (loop obj0 pre) in
  let r := loop obj0 (pre ++ Input input sent :: rest) in
  (f = EmptyString →
     run_status r = Returned (Some (Errorf "received empty field")))
  ∧ (f ≠ EmptyString → obj_field obj ≠ EmptyString → f ≠ obj_field obj →
     run_status r
     = Returned (Some (Errorf "input field changed from: `%s`, to: `%s`")))
  ∧ (f ≠ EmptyString → obj_field obj = EmptyString ∨ obj_field obj = f →
     ∃ obj', (receive obj input = Continue obj' ∨ receive obj input = Send obj')
             ∧ obj_field obj' = f
             ∧ (run_status (loop obj0 (pre ++ [Input input sent])) = Running
                ∨ run_status (loop obj0 (pre ++ [Input input sent]))
                  = Returned None))
  ∧ (obj_field obj ≠ EmptyString → run_status r = Running →
     obj_field (run_obj r) = obj_field obj).
Proof.
  intros Hl0 Hf0 Hs Ha obj r.
  assert (Hp0 : pinned obj0) by (unfold pinned; rewrite Hl0; exact I).
  destruct (loop_running obj0 pre Hp0 Hs) as (Hp & _ & _). fold obj in Hp.
  destruct (loop_snoc obj0 pre (Input input sent) rest Hs) as (Hst & Hob & _).
  fold obj r in Hst, Hob.
  destruct (loop_snoc obj0 pre (Input input sent) [] Hs) as (Hst1 & _ & _).
  fold obj in Hst1.
  split; [|split; [|split]].
  - intros ->. rewrite Hst. simpl.
    rewrite (receive_aggregate obj input st _ o Ha)
      by (eapply not_unchanged; eauto).
    reflexivity.
  - intros Hne Hpin Hdiff. rewrite Hst. simpl.
    rewrite (receive_aggregate obj input st _ o Ha)
      by (eapply not_unchanged; eauto).
    simpl. destruct (String.eqb_spec f EmptyString); [contradiction|].
    destruct (String.eqb_spec (obj_field obj) EmptyString); [contradiction|].
    simpl. destruct (String.eqb_spec f (obj_field obj)); [contradiction|].
    reflexivity.
  - intros Hne Hok. rewrite Hst1. simpl.
    destruct (unchanged (obj_last obj) input) eqn:Hu.
    + assert (Hrec : receive obj input = Continue obj)
        by (unfold receive; rewrite Hu; reflexivity).
      exists obj. rewrite Hrec. simpl. repeat split; auto.
      apply unchanged_true in Hu. unfold pinned in Hp. rewrite Hu in Hp.
      rewrite (aggregate_selector _ _ _ _ Ha) in Hp. destruct Hp as [[= Heq] _].
      congruence.
    + rewrite (receive_aggregate obj input st _ o Ha Hu). simpl.
      destruct (String.eqb_spec f EmptyString); [contradiction|].
      assert (Hfield :
        obj_field (if String.eqb (obj_field obj) EmptyString
                   then set_field (set_last obj (Some input)) f
                   else set_last obj (Some input)) = f).
      { destruct (String.eqb_spec (obj_field obj) EmptyString) as [E|E]; simpl;
          [reflexivity|]. destruct Hok; congruence. }
      rewrite Hfield, String.eqb_refl. simpl.
      destruct (obj_result obj) as [x|]; [destruct (ValueCmp _ x)|];
        eexists; (split; [eauto|]); simpl; (split; [exact Hfield|]);
        try (left; reflexivity); destruct sent; simpl; auto.
  - intros Hpin Hrun. rewrite Hob. rewrite Hst in Hrun.
    apply (loop_running obj (Input input sent :: rest) Hp Hrun). exact Hpin.
Qed.

Lemma ex_input_aggregate f o : aggregate (ex_input f o) ex_struct f o.
Proof. eexists. repeat split. Qed.

Lemma Stream_pins_selector_witness :
  run_status (loop new_func ([Input (ex_input "a" (IntValue 5)) true]
                               ++ [Input (ex_input "b" (IntValue 5)) true]))
  = Returned (Some (Errorf "input field changed from: `%s`, to: `%s`")).
Proof.
  refine (proj1 (proj2 (Stream_pins_selector new_func
            [Input (ex_input "a" (IntValue 5)) true]
            (ex_input "b" (IntValue 5)) true [] ex_struct "b" (IntValue 5)
            _ _ _ _)) _ _ _).
  - reflexivity.
  - reflexivity.
  - reflexivity.
  - apply ex_input_aggregate.
  - discriminate.
  - discriminate.
  - discriminate.
Defined.

Lemma receive_last obj input obj' :
  receive obj input = Continue obj' ∨ receive obj input = Send obj' →
  obj_last obj' = Some input.
Proof.
  intros Hr. unfold receive in Hr.
  destruct (unchanged (obj_last obj) input) eqn:Hu.
  { apply unchanged_true in Hu.
    destruct Hr as [[= <-]|?]; [assumption|discriminate]. }
  destruct (Struct input) as [m|]; [|destruct Hr; discriminate].
  destruct (assoc structLookupOptionalArgNameStruct m) as [[| | |st]|];
    try (destruct Hr; discriminate).
  destruct (assoc structLookupOptionalArgNameField m ≫= Str) as [f|];
    [|destruct Hr; discriminate].
  destruct (String.eqb f EmptyString); [destruct Hr; discriminate|].
  simpl in Hr.
  destruct (String.eqb (obj_field obj) EmptyString); simpl in Hr;
    (destruct (negb _); [destruct Hr; discriminate|]);
    (destruct (obj_result obj) as [r|];
     [destruct (Lookup st f), (assoc structLookupOptionalArgNameOptional m);
      try (destruct Hr; discriminate);
      destruct (ValueCmp _ r)|]);
    destruct Hr as [[= <-]|[= <-]]; reflexivity.
Qed.

Lemma receive_repeated obj input :
  obj_last obj = Some input → receive obj input = Continue obj.
Proof.
  intros Hl. unfold receive.
  rewrite (proj2 (unchanged_true (obj_last obj) input) Hl). reflexivity.
Qed.

(** What a valid, new input leaves in the node: the computed result is
    stored and sent, or it was stored already and nothing is sent. *)
Lemma receive_valid obj input st f o :
  aggregate input st f o →
  unchanged (obj_last obj) input = false →
  f ≠ EmptyString →
  obj_field obj = EmptyString ∨ obj_field obj = f →
  let result := lookup_or st f o in
  ∃ obj',
    obj_result obj' = Some result
    ∧ ((receive obj input = Send obj'
        ∧ obj_result obj ≠ Some result
        ∧ ∀ rest, loop obj (Input input true :: rest)
                  = emit (Some result) (loop obj' rest))
       ∨ (receive obj input = Continue obj'
          ∧ obj_result obj = Some result
          ∧ ∀ sent rest, loop obj (Input input sent :: rest)
                         = loop obj' rest)).
Proof.
  intros Ha Hu Hne Hok result.
  pose proof (receive_aggregate obj input st f o Ha Hu) as Hr. simpl in Hr.
  destruct (String.eqb_spec f EmptyString); [contradiction|].
  assert (Hfield :
    obj_field (if String.eqb (obj_field obj) EmptyString
               then set_field (set_last obj (Some input)) f
               else set_last obj (Some input)) = f).
  { destruct (String.eqb_spec (obj_field obj) EmptyString) as [E|E]; simpl;
      [reflexivity|]. destruct Hok; congruence. }
  rewrite Hfield, String.eqb_refl in Hr. simpl in Hr. fold result in Hr.
  assert (Hres : ∀ ob, obj_result
            (if String.eqb (obj_field obj) EmptyString
             then set_field (set_last ob (Some input)) f
             else set_last ob (Some input)) = obj_result ob)
    by (intros ob; destruct (String.eqb _ _); reflexivity).
  destruct (obj_result obj) as [r|] eqn:Hor.
  - destruct (ValueCmp result r) as [e|] eqn:Hc.
    + eexists. split; [|left; split; [exact Hr|split]].
      * reflexivity.
      * intros [= ->].
        assert (ValueCmp result result = None) by (apply ValueCmp_nil; reflexivity).
        congruence.
      * intros rest. simpl. rewrite Hr. reflexivity.
    + apply ValueCmp_nil in Hc. subst r.
      eexists. split; [|right; split; [exact Hr|split]].
      * rewrite Hres. exact Hor.
      * reflexivity.
      * intros sent rest. simpl. rewrite Hr. reflexivity.
  - eexists. split; [|left; split; [exact Hr|split]].
    + reflexivity.
    + discriminate.
    + intros rest. simpl. rewrite Hr. reflexivity.
Qed.

(** C5: for a well-formed input that is not a repetition of the last one and
    carries a valid selector name, the computed result is the member of the
    container under that name when there is one and the fallback otherwise.
    That result is what the node stores, and what it sends unless the result
    it had stored already was the same. *)
Theorem Stream_result_member_or_fallback obj input st f o :
  aggregate input st f o →
  unchanged (obj_last obj) input = false →
  f ≠ EmptyString →
  obj_field obj = EmptyString ∨ obj_field obj = f →
  let result := lookup_or st f o in
  (∀ val, Lookup st f = Some val → result = val)
  ∧ (Lookup st f = None → result = o)
  ∧ ∃ obj',
      obj_result obj' = Some result
      ∧ ((receive obj input = Send obj'
          ∧ obj_result obj ≠ Some result
          ∧ ∀ rest, loop obj (Input input true :: rest)
                    = emit (Some result) (loop obj' rest))
         ∨ (receive obj input = Continue obj'
            ∧ obj_result obj = Some result
            ∧ ∀ sent rest, loop obj (Input input sent :: rest)
                           = loop obj' rest)).
Proof.
  intros Ha Hu Hne Hok result.
  split; [|split].
  - intros val Hv. unfold result, lookup_or. rewrite Hv. reflexivity.
  - intros Hn. unfold result, lookup_or. rewrite Hn. reflexivity.
  - apply receive_valid; assumption.
Qed.

Lemma Stream_result_member_or_fallback_witness :
  lookup_or ex_struct "c" (IntValue 5) = IntValue 5.
Proof.
  refine (proj1 (proj2 (Stream_result_member_or_fallback new_func
            (ex_input "c" (IntValue 5)) ex_struct "c" (IntValue 5) _ _ _ _)) _).
  - apply ex_input_aggregate.
  - reflexivity.
  - discriminate.
  - left. reflexivity.
  - reflexivity.
Defined.

Example Stream_member_present :
  run_out (loop new_func [Input (ex_input "a" (IntValue 5)) true])
  = [Some (IntValue 7)].
Proof. reflexivity. Qed.

Example Stream_member_absent :
  run_out (loop new_func [Input (ex_input "c" (IntValue 5)) true])
  = [Some (IntValue 5)].
Proof. reflexivity. Qed.

Lemma loop_single_out obj input sent :
  (length (run_out (loop obj [Input input sent])) ≤ 1)%nat.
Proof.
  simpl. destruct (receive obj input); simpl; try lia.
  destruct sent; simpl; lia.
Qed.

(** C6: an input that compares equal to the one received just before it is
    skipped: the node that went on after the first goes round the loop
    without any change of state, the run is the run without the second
    input, and the two inputs together lead to at most one send. *)
Theorem Stream_skips_repeated_input obj a b sent_a sent_b rest :
  ValueCmp b a = None →
  (∀ obj', receive obj a = Continue obj' ∨ receive obj a = Send obj' →
           receive obj' b = Continue obj')
  ∧ loop obj (Input a sent_a :: Input b sent_b :: rest)
    = loop obj (Input a sent_a :: rest)
  ∧ (length (run_out (loop obj [Input a sent_a; Input b sent_b])) ≤ 1)%nat.
Proof.
  intros Hc. apply ValueCmp_nil in Hc. subst b.
  assert (Hskip : ∀ obj', receive obj a = Continue obj' ∨ receive obj a = Send obj' →
                          receive obj' a = Continue obj').
  { intros obj' Hr. apply receive_repeated. eapply receive_last; eassumption. }
  assert (Heq : ∀ rest', loop obj (Input a sent_a :: Input a sent_b :: rest')
                         = loop obj (Input a sent_a :: rest')).
  { intros rest'. simpl.
    destruct (receive obj a) as [obj'|obj'|obj' err|obj'] eqn:Hr; try reflexivity.
    - rewrite (Hskip obj') by auto. reflexivity.
    - rewrite (Hskip obj') by auto. reflexivity. }
  split; [exact Hskip|]. split; [apply Heq|].
  rewrite Heq. apply loop_single_out.
Qed.

Lemma Stream_skips_repeated_input_witness :
  loop new_func [Input (ex_input "a" (IntValue 5)) true;
                 Input (ex_input "a" (IntValue 5)) true]
  = loop new_func [Input (ex_input "a" (IntValue 5)) true].
Proof.
  refine (proj1 (proj2 (Stream_skips_repeated_input new_func
            (ex_input "a" (IntValue 5)) (ex_input "a" (IntValue 5))
            true true [] _))).
  reflexivity.
Defined.

(** C7: when a new input, valid and not a repetition, leads to a result that
    compares equal to the last result the node sent, nothing is sent for it:
    the outputs are those before the input, and the node keeps running with
    the input remembered. *)
Theorem Stream_suppresses_unchanged_result obj0 pre input sent st f o r :
  obj_last obj0 = None →
  obj_result obj0 = None →
  run_status (loop obj0 pre) = Running →
  last (run_out (loop obj0 pre)) = Some (Some r) →
  let obj := run_obj (loop obj0 pre) in
  aggregate input st f o →
  unchanged (obj_last obj) input = false →
  f ≠ EmptyString →
  obj_field obj = EmptyString ∨ obj_field obj = f →
  ValueCmp (lookup_or st f o) r = None →
  let run := loop obj0 (pre ++ [Input input sent]) in
  run_out run = run_out (loop obj0 pre)
  ∧ run_status run = Running
  ∧ obj_result (run_obj run) = Some r
  ∧ obj_last (run_obj run) = Some input
  ∧ ∃ obj', receive obj input = Continue obj'.
Proof.
  intros Hl0 Hr0 Hs Hlast obj Ha Hu Hne Hok Hc run.
  assert (Hp0 : pinned obj0) by (unfold pinned; rewrite Hl0; exact I).
  destruct (loop_running obj0 pre Hp0 Hs) as (_ & _ & Hres).
  rewrite Hlast in Hres. simpl in Hres. fold obj in Hres.
  destruct (receive_valid obj input st f o Ha Hu Hne Hok)
    as (obj' & Hres' & [(Hsend & Hdiff & _)|(Hcont & _ & Hloop)]).
  { apply ValueCmp_nil in Hc. congruence. }
  destruct (loop_snoc obj0 pre (Input input sent) [] Hs) as (Hst & Hob & Hout).
  fold obj run in Hst, Hob, Hout.
  rewrite (Hloop sent []) in Hst, Hob, Hout. simpl in Hst, Hob, Hout.
  rewrite app_nil_r in Hout.
  repeat split; try assumption.
  - rewrite Hob, Hres'. apply ValueCmp_nil in Hc. congruence.
  - rewrite Hob. eapply receive_last. left. exact Hcont.
  - eauto.
Qed.

Lemma Stream_suppresses_unchanged_result_witness :
  run_out (loop new_func ([Input (ex_input "a" (IntValue 5)) true]
                            ++ [Input (ex_input "a" (IntValue 6)) true]))
  = [Some (IntValue 7)].
Proof.
  refine (proj1 (Stream_suppresses_unchanged_result new_func
            [Input (ex_input "a" (IntValue 5)) true]
            (ex_input "a" (IntValue 6)) true ex_struct "a" (IntValue 6)
            (IntValue 7) _ _ _ _ _ _ _ _ _)).
  - reflexivity.
  - reflexivity.
  - reflexivity.
  - reflexivity.
  - apply ex_input_aggregate.
  - reflexivity.
  - discriminate.
  - right. reflexivity.
  - reflexivity.
Defined.

Lemma loop_terminates obj sched :
  InputClosed ∈ sched ∨ Done ∈ sched → run_status (loop obj sched) ≠ Running.
Proof.
  revert obj. induction sched as [|[input sent| |] sched IH]; intros obj H; simpl;
    try discriminate.
  - destruct H as [H|H]; inversion H.
  - assert (H' : InputClosed ∈ sched ∨ Done ∈ sched).
    { destruct H as [H|H]; inversion H; subst; auto. }
    destruct (receive obj input); simpl; try discriminate; [auto|].
    destruct sent; simpl; [auto | discriminate].
Qed.

(** C10: whenever [Stream] ends, be it on a closed input, on cancellation at
    either [select], on a selector error or on a panic, what the node did to
    its output channel is a series of sends followed by one close; and a
    closed input or a cancellation in the schedule does end it.  A node that
    is still running has not closed the channel. *)
Theorem Stream_closes_output_once obj sched :
  let '(status, _, actions) := Stream obj sched in
  (InputClosed ∈ sched ∨ Done ∈ sched → status ≠ Running)
  ∧ (status ≠ Running →
     actions = (ASend <$> run_out (loop obj sched)) ++ [AClose]
     ∧ length (List.filter is_close actions) = 1%nat
     ∧ last actions = Some AClose)
  ∧ (status = Running → AClose ∉ actions).
Proof.
  unfold Stream. split; [apply loop_terminates|].
  assert (Hn : ∀ vs : list (option Value),
             List.filter is_close (ASend <$> vs) = []).
  { induction vs as [|v vs IHvs]; [reflexivity|]. simpl. exact IHvs. }
  split.
  - intros Hs. destruct (run_status (loop obj sched)); [contradiction| |];
      simpl; (split; [reflexivity|]); rewrite List.filter_app, Hn, last_snoc;
      split; reflexivity.
  - intros ->. simpl. rewrite app_nil_r. intros Hin.
    apply list_elem_of_fmap in Hin. destruct Hin as (v & Hv & _). discriminate.
Qed.

Lemma Stream_closes_output_once_witness :
  (Stream new_func [Input (ex_input "a" (IntValue 5)) true; Done]).2
  = [ASend (Some (IntValue 7)); AClose].
Proof.
  pose proof (Stream_closes_output_once new_func
                [Input (ex_input "a" (IntValue 5)) true; Done]) as H.
  cbv beta iota zeta delta [Stream] in H.
  apply proj2, proj1 in H. apply H. discriminate.
Defined.

(** ** The generator: what it learns *)

Arguments validateArg0 : simpl never.
Arguments validateArg2OrOut : simpl never.

Lemma validate_all_app field obs1 obs2 st :
  validate_all field (obs1 ++ obs2) st
  = st' ← validate_all field obs1 st; validate_all field obs2 st'.
Proof.
  revert st. induction obs1 as [|ob obs1 IH]; intros st; simpl; [reflexivity|].
  destruct (validate field ob st); simpl; [apply IH | reflexivity | reflexivity].
Qed.

Ltac step_validate :=
  match goal with
  | |- context [validateArg0 ?f ?t ?s] =>
    destruct (validateArg0 f t s) as [[? ?]| |]; simpl
  | |- context [validateArg2OrOut ?t ?s] =>
    destruct (validateArg2OrOut t s) as [[? ?]| |]; simpl
  end.

(** [learn] runs the validators over the observations and wraps the first
    error. *)
Lemma learn_validate_all field e a0 a2 solved :
  match validate_all field (observations e a0 a2 solved) (None, None) with
  | Ok st => learn field e a0 a2 solved = Ok st
  | Err err => ∃ msg, learn field e a0 a2 solved = Err (Wrapf err msg)
  | Panic => learn field e a0 a2 solved = Panic
  end.
Proof.
  unfold learn, observations, observations0, observations2, known, ifKnown.
  destruct (Expr_Type a0) as [x1|], (solved !! Expr_ptr a0) as [x2|],
           (Expr_Type a2) as [x3|], (solved !! Expr_ptr a2) as [x4|],
           (Expr_Type e) as [x5|], (solved !! Expr_ptr e) as [x6|];
    simpl; repeat step_validate; eauto.
Qed.

(** The validators never panic. *)
Lemma validate_no_panic field ob st : validate field ob st ≠ Panic.
Proof.
  destruct st as [t1 t2]. destruct ob as [[T|]|[T|]]; simpl;
    unfold validateArg0, validateArg2OrOut; try discriminate.
  - destruct (negb (Kind_eqb (TKind T) KindStruct)); [discriminate|].
    destruct (Map_get (TMap T) field) as [t ex].
    destruct (negb (String.eqb field EmptyString)); simpl.
    + destruct (negb ex || negb _); simpl;
        [|destruct t2; [destruct (Cmp t _)|]; simpl; try discriminate];
        destruct t1; try destruct (TypeCmp T _); discriminate.
    + destruct t1; try destruct (TypeCmp T _); discriminate.
  - destruct t2; [destruct (Cmp _ _)|]; discriminate.
Qed.

Lemma validateArg0_nil field st : validateArg0 field None st = Ok st.
Proof. destruct st; reflexivity. Qed.



Lemma validateArg2OrOut_ok T t1 t2 st' :
  validateArg2OrOut (Some T) (t1, t2) = Ok st' →
  st' = (t1, Some T) ∧ (∀ c, t2 = Some c → TypeCmp T c = None).
Proof.
  unfold validateArg2OrOut.
  destruct t2 as [c|]; [destruct (Cmp (Some T) (Some c)) eqn:Hc; [discriminate|]|];
    intros [= <-]; split; try reflexivity; try congruence.
  intros c' [= <-]. exact Hc.
Qed.

Lemma assoc_In {A} (k : string) (m : list (string * A)) (a : A) :
  assoc k m = Some a → In (k, a) m.
Proof.
  induction m as [|[k' a'] m IH]; simpl; [discriminate|].
  destruct (String.eqb_spec k k') as [->|_]; [intros [= ->]; auto | auto].
Qed.



Lemma wf_exists_found T field :
  wf_struct T = true → snd (Map_get (TMap T) field) = true →
  found T field = true.
Proof.
  unfold wf_struct, Map_get. destruct (TMap T) as [m|]; [|discriminate].
  rewrite andb_true_iff, !forallb_forall. intros [_ H].
  destruct (assoc field m) as [t|] eqn:Ha; [|discriminate]. intros _.
  apply (H (field, t)). apply assoc_In. exact Ha.
Qed.














(** ** The generator: a struct without the member *)


(** In a well-formed struct, a name that is not in [Ord] is not in the map. *)
Lemma wf_not_found_absent T field :
  wf_struct T = true → found T field = false → absent T field.
Proof.
  intros Hwf Hf. unfold absent.
  destruct (snd (Map_get (TMap T) field)) eqn:Hm; [|reflexivity].
  rewrite (wf_exists_found T field Hwf Hm) in Hf. discriminate.
Qed.



Lemma validate_all_arg2_t1 field l st st' :
  validate_all field (ObsArg2OrOut <$> l) st = Ok st' → st'.1 = st.1.
Proof.
  revert st. induction l as [|[T|] l IH]; intros [t1 t2]; simpl.
  - intros [= <-]. reflexivity.
  - destruct (validateArg2OrOut (Some T) (t1, t2)) as [st1| |] eqn:Hv; simpl;
      try discriminate.
    apply validateArg2OrOut_ok in Hv. destruct Hv as [-> _].
    intros H. apply IH in H. exact H.
  - apply (IH (t1, t2)).
Qed.

Lemma fn_skip c heap pre rest solved :
  Forall (other_call c) pre →
  fn c heap (pre ++ rest) solved = fn c heap rest solved.
Proof.
  induction 1 as [|inv pre Hinv _ IH]; [reflexivity|].
  destruct inv; simpl in *; try exact IH.
  destruct (Nat.eqb_spec (Expr_ptr func) (Expr_ptr (expr c))); [contradiction|].
  exact IH.
Qed.

Arguments structInvariants : simpl never.







(** * Further properties *)

(** ** The streaming loop *)

Ltac receive_open Hr :=
  unfold receive in Hr;
  destruct (unchanged _ _) eqn:?Hu;
  [| destruct (Struct _) as [?m|] eqn:?Hm;
     [ destruct (assoc structLookupOptionalArgNameStruct _) as [[| | |?st]|] eqn:?Hs;
       [| | | destruct (assoc structLookupOptionalArgNameField _ ≫= Str)
               as [?f|] eqn:?Hf;
             [ destruct (String.eqb _ EmptyString) eqn:?He;
               [| simpl in Hr;
                  destruct (String.eqb (obj_field _) EmptyString) eqn:?Hp;
                  simpl in Hr;
                  (destruct (negb _) eqn:?Hn;
                   [| destruct (obj_result _) as [?r|] eqn:?Hres;
                      [ destruct (Lookup _ _) as [?val|] eqn:?Hl;
                        [ destruct (ValueCmp _ _) eqn:?Hc
                        | destruct (assoc structLookupOptionalArgNameOptional _)
                            as [?o|] eqn:?Ho;
                          [ destruct (ValueCmp _ _) eqn:?Hc |] ]
                      |] ]) ]
             |] | ]
     |] ].

(** A send follows an input whose answer is new. *)
Lemma receive_send obj input obj' :
  receive obj input = Send obj' →
  answer input = Some (obj_result obj')
  ∧ ∀ x, obj_result obj = Some x → obj_result obj' ≠ Some x.
Proof.
  intros Hr. unfold answer. receive_open Hr; try discriminate;
    injection Hr as <-; simpl; rewrite ?Hl, ?Ho;
    (split; [reflexivity|]); intros x [= <-] [= ->];
    match goal with
    | H : ValueCmp ?a ?a = Some _ |- _ =>
      assert (ValueCmp a a = None) by (apply ValueCmp_nil; reflexivity);
      congruence
    end.
Qed.

Lemma receive_return obj input obj' err :
  receive obj input = Return obj' err →
  err = Some errEmptyField ∨ err = Some errFieldChanged.
Proof.
  intros Hr. receive_open Hr; try discriminate; injection Hr as _ <-; auto.
Qed.

Lemma receive_signature obj input :
  obj_Type (cycle_obj (receive obj input)) = obj_Type obj
  ∧ obj_Out (cycle_obj (receive obj input)) = obj_Out obj.
Proof.
  destruct (receive obj input) as [o|o|o e|o] eqn:Hr; simpl;
    receive_open Hr; try discriminate;
    first [injection Hr as <- | injection Hr as <- _]; split; reflexivity.
Qed.





(** X2: The values sent are answers to inputs of the schedule, in the order of
    the inputs and at most one for each input. *)
Theorem Stream_outputs_answer_inputs obj sched :
  sublist (run_out (loop obj sched)) (answers sched).
Proof.
  revert obj. unfold answers.
  induction sched as [|[input sent| |] sched IH]; intros obj; simpl;
    try apply sublist_nil_l.
  destruct (receive obj input) as [obj'|obj'|obj' err|obj'] eqn:Hr; simpl;
    try apply sublist_nil_l.
  - destruct (answer input); [apply sublist_cons|]; apply IH.
  - destruct (receive_send _ _ _ Hr) as [-> _].
    destruct sent; simpl; [apply sublist_skip, IH | apply sublist_nil_l].
Qed.

(** X3: Once the loop has ended, nothing that follows in the schedule is looked
    at: the run, and what [Stream] did to its output, stay what they were. *)
Theorem Stream_stops_for_good obj pre rest :
  run_status (loop obj pre) ≠ Running →
  loop obj (pre ++ rest) = loop obj pre
  ∧ Stream obj (pre ++ rest) = Stream obj pre.
Proof.
  intros Hs.
  assert (H : loop obj (pre ++ rest) = loop obj pre).
  { rewrite loop_app. unfold and_then.
    destruct (run_status (loop obj pre)); [contradiction|reflexivity..]. }
  split; [exact H|]. unfold Stream. rewrite H. reflexivity.
Qed.

Lemma Stream_stops_for_good_witness :
  Stream new_func ([Done] ++ [Input (ex_input "a" (IntValue 5)) true])
  = Stream new_func [Done].
Proof.
  apply (Stream_stops_for_good new_func [Done]
           [Input (ex_input "a" (IntValue 5)) true]).
  discriminate.
Defined.

(** X4: The only errors the loop returns are the two selector errors: an empty
    field name, or a field name other than the first one. *)
Theorem Stream_returns_only_selector_errors obj sched e :
  run_status (loop obj sched) = Returned (Some e) →
  e = errEmptyField ∨ e = errFieldChanged.
Proof.
  revert obj. induction sched as [|[input sent| |] sched IH]; intros obj; simpl;
    try discriminate.
  destruct (receive obj input) as [obj'|obj'|obj' err|obj'] eqn:Hr; simpl;
    try discriminate.
  - apply IH.
  - destruct sent; simpl; [apply IH | discriminate].
  - intros [= ->]. destruct (receive_return _ _ _ _ Hr) as [[= <-]|[= <-]]; auto.
Qed.

Lemma Stream_returns_only_selector_errors_witness :
  Errorf "received empty field" = errEmptyField
  ∨ Errorf "received empty field" = errFieldChanged.
Proof.
  apply (Stream_returns_only_selector_errors new_func
           [Input (ex_input EmptyString (IntValue 5)) true]).
  reflexivity.
Defined.

Lemma receive_aggregate_no_panic obj input st f o obj' :
  aggregate input st f o → receive obj input ≠ Panicked obj'.
Proof.
  intros Ha. destruct (unchanged (obj_last obj) input) eqn:Hu.
  - unfold receive. rewrite Hu. discriminate.
  - rewrite (receive_aggregate obj input st f o Ha Hu). simpl.
    destruct (String.eqb f EmptyString); [discriminate|].
    destruct (negb _); [discriminate|].
    destruct (obj_result obj) as [r|]; [destruct (ValueCmp _ r)|]; discriminate.
Qed.

(** X5: On inputs that carry a struct, a string and a fallback under the three
    argument names, the loop never panics. *)
Theorem Stream_no_panic_on_aggregates obj sched :
  (∀ input sent, Input input sent ∈ sched → ∃ st f o, aggregate input st f o) →
  run_status (loop obj sched) ≠ Crashed.
Proof.
  revert obj. induction sched as [|[input sent| |] sched IH]; intros obj Hall;
    simpl; try discriminate.
  assert (Hrest : ∀ input' sent', Input input' sent' ∈ sched →
                                  ∃ st f o, aggregate input' st f o).
  { intros input' sent' Hin. apply (Hall input' sent'). right. exact Hin. }
  destruct (receive obj input) as [obj'|obj'|obj' err|obj'] eqn:Hr; simpl;
    try discriminate.
  - apply IH, Hrest.
  - destruct sent; simpl; [apply IH, Hrest | discriminate].
  - destruct (Hall input sent) as (st & f & o & Ha); [left|].
    exfalso. exact (receive_aggregate_no_panic obj input st f o obj' Ha Hr).
Qed.

Lemma Stream_no_panic_on_aggregates_witness :
  run_status (loop new_func [Input (ex_input "a" (IntValue 5)) true]) ≠ Crashed.
Proof.
  apply Stream_no_panic_on_aggregates.
  intros input sent Hin. apply list_elem_of_singleton in Hin.
  injection Hin as -> _. eexists _, _, _. apply ex_input_aggregate.
Defined.

(** X6: The loop leaves the signature fixed by [Build] alone: after any run the
    node has the [Type] and [Out] it started with, and [Validate] says what
    it said before. *)
Theorem Stream_keeps_signature obj sched :
  obj_Type (run_obj (loop obj sched)) = obj_Type obj
  ∧ obj_Out (run_obj (loop obj sched)) = obj_Out obj
  ∧ Validate (run_obj (loop obj sched)) = Validate obj.
Proof.
  assert (H : obj_Type (run_obj (loop obj sched)) = obj_Type obj
              ∧ obj_Out (run_obj (loop obj sched)) = obj_Out obj).
  { revert obj. induction sched as [|[input sent| |] sched IH]; intros obj;
      simpl; try (split; reflexivity).
    pose proof (receive_signature obj input) as [Ht Ho].
    destruct (receive obj input) as [obj'|obj'|obj' err|obj']; simpl in *;
      try (split; assumption).
    - destruct (IH obj') as [-> ->]. split; assumption.
    - destruct sent; simpl; [|split; assumption].
      destruct (IH obj') as [-> ->]. split; assumption. }
  destruct H as [Ht Ho]. repeat split; try assumption.
  unfold Validate. rewrite Ht, Ho. reflexivity.
Qed.

(** ** Build, Validate and Info *)

Lemma Build_ok obj typ obj' s :
  Build obj typ = Ok (obj', s) →
  ∃ tStruct out,
    arg typ 0 = Some tStruct ∧ TOut typ = Some out
    ∧ obj' = {| obj_Type := Some tStruct; obj_Out := Some out;
                obj_last := obj_last obj; obj_field := obj_field obj;
                obj_result := obj_result obj |}
    ∧ s = NewFunc [(structLookupOptionalArgNameStruct, tStruct);
                   (structLookupOptionalArgNameField, TypeStr);
                   (structLookupOptionalArgNameOptional, out)] out.
Proof.
  intros Hb.
  destruct (Build_cases obj typ) as [[_ [e He]]|[_ (t & out & H0 & Ho & Hs)]];
    [congruence|].
  simpl in Hs. destruct Hs as (s' & Hsig & Hb'). rewrite Hb in Hb'.
  injection Hb' as -> ->. exists t, out. repeat split; try assumption.
  unfold sig in Hsig. simpl in Hsig. congruence.
Qed.

(** [Build] reads nothing of the receiver but the fields it leaves alone. *)
Lemma Build_receiver a b typ :
  obj_last a = obj_last b → obj_field a = obj_field b →
  obj_result a = obj_result b →
  Build a typ = Build b typ.
Proof.
  intros Hl Hf Hr. unfold Build.
  destruct typ as [k m ord out]. simpl.
  destruct (negb (Kind_eqb k KindFunc)); [reflexivity|].
  destruct ord as [|k0 [|k1 [|k2 [|k3 ord]]]]; simpl; try reflexivity.
  destruct out as [out|]; [|reflexivity].
  destruct m as [m|]; [|reflexivity]. simpl.
  destruct (assoc k0 m) as [[t0|]|]; try reflexivity. simpl.
  destruct (assoc k1 m) as [[t1|]|]; try reflexivity.
  destruct (TypeCmp t1 TypeStr); [reflexivity|]. simpl.
  destruct (assoc k2 m) as [[t2|]|]; try reflexivity.
  destruct (TypeCmp t2 out); [reflexivity|]. simpl.
  rewrite Hl, Hf, Hr. reflexivity.
Qed.

(** X7: [Build] is idempotent, and a later [Build] replaces an earlier one: on a
    node that was built, building again gives what building the node afresh
    would give, and building with the same signature changes nothing. *)
Theorem Build_idempotent obj typ obj' s :
  Build obj typ = Ok (obj', s) →
  Build obj' typ = Ok (obj', s)
  ∧ ∀ typ', Build obj' typ' = Build obj typ'.
Proof.
  intros Hb.
  assert (H : ∀ typ', Build obj' typ' = Build obj typ').
  { intros typ'. destruct (Build_ok _ _ _ _ Hb) as (t & out & _ & _ & -> & _).
    apply Build_receiver; reflexivity. }
  split; [rewrite H; exact Hb | exact H].
Qed.

Lemma Build_idempotent_witness :
  ∃ obj' s,
    Build new_func (NewFunc [("struct", ex_type); ("field", TypeStr);
                             ("optional", TypeInt)] TypeInt) = Ok (obj', s)
    ∧ Build obj' (NewFunc [("struct", ex_type); ("field", TypeStr);
                           ("optional", TypeInt)] TypeInt) = Ok (obj', s).
Proof.
  eexists _, _. split; [reflexivity|].
  apply (Build_idempotent new_func). reflexivity.
Defined.

(** X8: After a successful [Build], [Validate] passes exactly when the first
    argument of the signature is a struct; otherwise it reports that the
    type must be a struct. *)
Theorem Build_then_Validate obj typ obj' s :
  Build obj typ = Ok (obj', s) →
  ∃ tStruct,
    arg typ 0 = Some tStruct
    ∧ (TKind tStruct = KindStruct → Validate obj' = None)
    ∧ (TKind tStruct ≠ KindStruct →
       Validate obj' = Some (Errorf "type must be a kind of struct")).
Proof.
  intros Hb. destruct (Build_ok _ _ _ _ Hb) as (t & out & H0 & _ & -> & _).
  exists t. split; [exact H0|]. unfold Validate. simpl. split.
  - intros Hk. apply Kind_eqb_eq in Hk. rewrite Hk. reflexivity.
  - intros Hk. apply Kind_eqb_neq in Hk. rewrite Hk. reflexivity.
Qed.

Lemma Build_then_Validate_witness :
  ∃ obj' s,
    Build new_func (NewFunc [("struct", ex_type); ("field", TypeStr);
                             ("optional", TypeInt)] TypeInt) = Ok (obj', s)
    ∧ Validate obj' = None.
Proof.
  eexists _, _. split; [reflexivity|].
  destruct (Build_then_Validate new_func
              (NewFunc [("struct", ex_type); ("field", TypeStr);
                        ("optional", TypeInt)] TypeInt) _ _ eq_refl)
    as (t & Ht & Hok & _).
  apply Hok. injection Ht as <-. reflexivity.
Defined.

(** X9: The signature [Build] returns has the three fixed argument names,
    whatever the names of the signature it was given: the container type
    under [struct], str under [field], and the return type under [optional]
    and as the return type. *)
Theorem Build_returns_signature obj typ obj' s :
  Build obj typ = Ok (obj', s) →
  TKind s = KindFunc
  ∧ TOrd s = ["struct"; "field"; "optional"]
  ∧ arg s 0 = arg typ 0 ∧ arg s 1 = Some TypeStr ∧ arg s 2 = TOut typ
  ∧ TOut s = TOut typ
  ∧ sig obj' = Ok s.
Proof.
  intros Hb. destruct (Build_ok _ _ _ _ Hb) as (t & out & H0 & Ho & -> & ->).
  rewrite H0, Ho. repeat split.
Qed.

Lemma Build_returns_signature_witness :
  ∃ obj' s,
    Build new_func (NewFunc [("x", ex_type); ("y", TypeStr); ("z", TypeInt)]
                            TypeInt) = Ok (obj', s)
    ∧ TOrd s = ["struct"; "field"; "optional"].
Proof.
  eexists _, _. split; [reflexivity|].
  refine (proj1 (proj2 (Build_returns_signature new_func
           (NewFunc [("x", ex_type); ("y", TypeStr); ("z", TypeInt)] TypeInt)
           _ _ _))).
  reflexivity.
Defined.

(** X10: [Info] does not fail on a node that was not built: it reports a nil
    signature and the error of [Validate].  On a node that was built it
    reports the signature [Build] returned, and in both cases a pure,
    unmemoized function. *)
Theorem Info_reports obj :
  (obj_Type obj = None →
   GetInfo obj = Ok {| Pure := true; Memo := false; Sig := None;
                       InfoErr := Some (Errorf "type is still unspecified") |})
  ∧ (∀ obj0 typ s, Build obj0 typ = Ok (obj, s) →
       GetInfo obj = Ok {| Pure := true; Memo := false; Sig := Some s;
                           InfoErr := Validate obj |}).
Proof.
  split.
  - intros Ht. unfold GetInfo, Validate. rewrite Ht. reflexivity.
  - intros obj0 typ s Hb.
    destruct (Build_ok _ _ _ _ Hb) as (t & out & _ & _ & -> & ->). reflexivity.
Qed.

Lemma Info_reports_witness :
  GetInfo new_func
  = Ok {| Pure := true; Memo := false; Sig := None;
          InfoErr := Some (Errorf "type is still unspecified") |}.
Proof. apply (proj1 (Info_reports new_func)). reflexivity. Defined.

(** ** The argument names, from zero up *)

(** X11: For an index that is not negative, [ArgGen] returns the name at that
    position when there is one, and its error when the index is 3 or more. *)
Theorem ArgGen_from_zero (i : Z) :
  (0 ≤ i)%Z →
  ArgGen i = match ["struct"; "field"; "optional"] !! Z.to_nat i with
             | Some name => Ok name
             | None => Err (Errorf "index %d exceeds arg length of %d")
             end.
Proof.
  intros Hi. destruct (Z_lt_le_dec i 3) as [Hlt|Hge].
  - assert (H : i = 0%Z ∨ i = 1%Z ∨ i = 2%Z) by lia.
    destruct H as [->|[->| ->]]; reflexivity.
  - rewrite (ArgGen_above i Hge).
    rewrite (lookup_ge_None_2 _ (Z.to_nat i)) by (simpl; lia). reflexivity.
Qed.

Lemma ArgGen_from_zero_witness :
  ArgGen 7 = Err (Errorf "index %d exceeds arg length of %d").
Proof. apply (ArgGen_from_zero 7). lia. Defined.

(** ** The generator: finding the call *)

Lemma fn_stops_at_call c heap pre e func args post solved :
  Forall (other_call c) pre →
  Expr_ptr func = Expr_ptr (expr c) →
  fn c heap (pre ++ CallFuncArgsValueInvariant e func args :: post) solved
  = generate c heap e args solved.
Proof.
  intros Hpre Hfunc. rewrite (fn_skip c heap pre _ solved Hpre). simpl.
  rewrite Hfunc, Nat.eqb_refl. reflexivity.
Qed.

(** A generator run either finds nothing, or stops at an invariant of its
    own call and does what [generate] does there. *)
Lemma fn_cases c heap invs solved :
  (Forall (other_call c) invs ∧ fn c heap invs solved = Err errNoProgress)
  ∨ ∃ pre e func args post,
      invs = pre ++ CallFuncArgsValueInvariant e func args :: post
      ∧ Forall (other_call c) pre
      ∧ Expr_ptr func = Expr_ptr (expr c)
      ∧ fn c heap invs solved = generate c heap e args solved.
Proof.
  induction invs as [|inv invs IH].
  - left. split; [constructor | reflexivity].
  - assert (Hother : other_call c inv →
      (Forall (other_call c) (inv :: invs)
       ∧ fn c heap invs solved = Err errNoProgress)
      ∨ ∃ pre e func args post,
          inv :: invs = pre ++ CallFuncArgsValueInvariant e func args :: post
          ∧ Forall (other_call c) pre
          ∧ Expr_ptr func = Expr_ptr (expr c)
          ∧ fn c heap invs solved = generate c heap e args solved).
    { intros Ho. destruct IH as [[Hall Hf]|(pre & e & func & args & post & -> & Hp & Hq & Hf)].
      - left. split; [constructor; assumption | exact Hf].
      - right. exists (inv :: pre), e, func, args, post.
        repeat split; try assumption. constructor; assumption. }
    destruct inv as [| | | | |e func args|]; try (apply Hother; exact I).
    simpl. destruct (Nat.eqb_spec (Expr_ptr func) (Expr_ptr (expr c))) as [E|E];
      simpl.
    + right. exists [], e, func, args, invs. repeat split; auto.
    + apply Hother. exact E.
Qed.

(** X12: When the invariants hold no mapping from this function to a call, the
    generator reports that it could not generate anything; the empty list
    is the first case of it. *)
Theorem fn_without_call_makes_no_progress c heap invs solved :
  Forall (other_call c) invs →
  fn c heap invs solved = Err errNoProgress.
Proof.
  intros Hall. rewrite <- (app_nil_r invs).
  rewrite (fn_skip c heap invs [] solved Hall). reflexivity.
Qed.

Lemma fn_without_call_makes_no_progress_witness :
  fn ex_closure 20
     [EqualityInvariant (ExprAny 7) (ExprAny 8);
      CallFuncArgsValueInvariant (ExprAny 4) (ExprAny 5) []] ∅
  = Err errNoProgress.
Proof.
  apply fn_without_call_makes_no_progress.
  repeat constructor. simpl. discriminate.
Defined.

(** X13: The generator goes by the first invariant that maps this function to a
    call: what comes before it is passed over and what comes after it is
    never read. *)
Theorem fn_first_call_decides c heap pre e func args post solved :
  Forall (other_call c) pre →
  Expr_ptr func = Expr_ptr (expr c) →
  fn c heap (pre ++ CallFuncArgsValueInvariant e func args :: post) solved
  = fn c heap [CallFuncArgsValueInvariant e func args] solved.
Proof.
  intros Hpre Hfunc.
  rewrite (fn_stops_at_call c heap pre e func args post solved Hpre Hfunc).
  simpl. rewrite Hfunc, Nat.eqb_refl. reflexivity.
Qed.

Lemma fn_first_call_decides_witness :
  fn ex_closure 20
     ([EqualityInvariant (ExprAny 7) (ExprAny 8)]
        ++ CallFuncArgsValueInvariant (ExprAny 4) (ExprAny 0) []
        :: [CallFuncArgsValueInvariant (ExprAny 4) (ExprAny 0)
              [ExprAny 1; ExprAny 2; ExprAny 3]]) ∅
  = fn ex_closure 20 [CallFuncArgsValueInvariant (ExprAny 4) (ExprAny 0) []] ∅.
Proof.
  apply fn_first_call_decides; [repeat constructor | reflexivity].
Defined.

(** X14: A call that does not have three arguments cannot be built: the generator
    returns the arity error. *)
Theorem fn_rejects_wrong_arity c heap pre e func args post solved :
  Forall (other_call c) pre →
  Expr_ptr func = Expr_ptr (expr c) →
  length args ≠ 3%nat →
  fn c heap (pre ++ CallFuncArgsValueInvariant e func args :: post) solved
  = Err (Errorf "unable to build function with %d args").
Proof.
  intros Hpre Hfunc Hlen.
  rewrite (fn_stops_at_call c heap pre e func args post solved Hpre Hfunc).
  unfold generate.
  destruct (Nat.eqb_spec (length args) 3); [contradiction | reflexivity].
Qed.

Lemma fn_rejects_wrong_arity_witness :
  fn ex_closure 20
     ([] ++ CallFuncArgsValueInvariant (ExprAny 4) (ExprAny 0)
              [ExprAny 1; ExprAny 2] :: []) ∅
  = Err (Errorf "unable to build function with %d args").
Proof.
  apply fn_rejects_wrong_arity; [constructor | reflexivity | discriminate].
Defined.

(** ** The generator: the selector and the container *)

Lemma ValueType_str v : TKind (ValueType v) = KindStr ↔ ∃ s, v = StrValue s.
Proof.
  destruct v as [b|s|z|V]; simpl; split; try discriminate; eauto;
    intros [s' Hs]; discriminate.
Qed.

Lemma staticField_unknown a1 :
  Expr_Value a1 = None → staticField a1 = Ok EmptyString.
Proof. intros Hv. unfold staticField. rewrite Hv. reflexivity. Qed.

Lemma staticField_str a1 s :
  Expr_Value a1 = Some (StrValue s) → staticField a1 = Ok s.
Proof. intros Hv. unfold staticField. rewrite Hv. reflexivity. Qed.

Lemma staticField_not_str a1 v :
  Expr_Value a1 = Some v → (∀ s, v ≠ StrValue s) →
  staticField a1
  = Err (Errorf "unable to build function with 1st arg of kind: %s").
Proof.
  intros Hv Hn. unfold staticField. rewrite Hv.
  destruct (Kind_eqb (TKind (ValueType v)) KindStr) eqn:Hk; [|reflexivity].
  apply Kind_eqb_eq, ValueType_str in Hk. destruct Hk as [s ->].
  destruct (Hn s eq_refl).
Qed.

Lemma staticField_no_panic a1 : staticField a1 ≠ Panic.
Proof.
  unfold staticField. destruct (Expr_Value a1) as [v|]; [|discriminate].
  destruct (Kind_eqb (TKind (ValueType v)) KindStr) eqn:Hk; [|discriminate].
  apply Kind_eqb_eq, ValueType_str in Hk. destruct Hk as [s ->]. discriminate.
Qed.

Lemma validate_all_no_panic field obs st : validate_all field obs st ≠ Panic.
Proof.
  revert st. induction obs as [|ob obs IH]; intros st; simpl; [discriminate|].
  destruct (validate field ob st) as [st'| |] eqn:Hv; simpl;
    [apply IH | discriminate | destruct (validate_no_panic _ _ _ Hv)].
Qed.

Lemma learn_no_panic field e a0 a2 solved : learn field e a0 a2 solved ≠ Panic.
Proof.
  pose proof (learn_validate_all field e a0 a2 solved) as Hl.
  destruct (validate_all field (observations e a0 a2 solved) (None, None))
    as [st|err|] eqn:Hv.
  - rewrite Hl. discriminate.
  - destruct Hl as [msg ->]. discriminate.
  - destruct (validate_all_no_panic _ _ _ Hv).
Qed.

(** What a successful [generate] has gone through. *)
Lemma generate_ok c heap e args solved out :
  generate c heap e args solved = Ok out →
  ∃ a0 a1 a2 field t1 t2,
    args = [a0; a1; a2]
    ∧ staticField a1 = Ok field
    ∧ learn field e a0 a2 solved = Ok (t1, t2)
    ∧ out = callInvariants c e a0 a1 a2
              ++ structInvariants c heap field t1
              ++ optionalInvariants c t2
              ++ [EqualityWrapCallInvariant e (expr c)].
Proof.
  unfold generate.
  destruct args as [|a0 [|a1 [|a2 [|a3 args]]]]; simpl; try discriminate.
  destruct (staticField a1) as [field| |] eqn:Hs; simpl; try discriminate.
  destruct (learn field e a0 a2 solved) as [[t1 t2]| |] eqn:Hl; simpl;
    try discriminate.
  intros [= <-]. exists a0, a1, a2, field, t1, t2. repeat split; assumption.
Qed.

Lemma generate_no_panic c heap e args solved :
  generate c heap e args solved ≠ Panic.
Proof.
  unfold generate.
  destruct args as [|a0 [|a1 [|a2 [|a3 args]]]]; simpl; try discriminate.
  pose proof (staticField_no_panic a1) as Hs.
  destruct (staticField a1) as [field| |]; simpl; try discriminate;
    [|contradiction].
  pose proof (learn_no_panic field e a0 a2 solved) as Hl.
  destruct (learn field e a0 a2 solved) as [[t1 t2]| |]; simpl;
    try discriminate. contradiction.
Qed.

(** X15: The generator never panics: reading the field name off the value of the
    second argument follows a test of its kind, and the three arguments are
    read after the test of their number. *)
Theorem fn_never_panics c heap invs solved : fn c heap invs solved ≠ Panic.
Proof.
  destruct (fn_cases c heap invs solved)
    as [[_ ->]|(pre & e & func & args & post & _ & _ & _ & ->)].
  - discriminate.
  - apply generate_no_panic.
Qed.

(** X16: A second argument whose value is known and is not a string is rejected,
    whatever the types of the arguments are. *)
Theorem fn_rejects_non_string_selector
    c heap pre e func a0 a1 a2 post solved v :
  Forall (other_call c) pre →
  Expr_ptr func = Expr_ptr (expr c) →
  Expr_Value a1 = Some v →
  (∀ s, v ≠ StrValue s) →
  fn c heap (pre ++ CallFuncArgsValueInvariant e func [a0; a1; a2] :: post)
     solved
  = Err (Errorf "unable to build function with 1st arg of kind: %s").
Proof.
  intros Hpre Hfunc Hv Hn.
  rewrite (fn_stops_at_call c heap pre e func _ post solved Hpre Hfunc).
  unfold generate. simpl. rewrite (staticField_not_str a1 v Hv Hn). reflexivity.
Qed.

Lemma fn_rejects_non_string_selector_witness :
  fn ex_closure 20
     ([] ++ CallFuncArgsValueInvariant (ex_arg 4 TypeInt None) (ExprAny 0)
              [ex_arg 1 ex_type None;
               ex_arg 2 TypeInt (Some (IntValue 3));
               ex_arg 3 TypeInt None] :: []) ∅
  = Err (Errorf "unable to build function with 1st arg of kind: %s").
Proof.
  apply (fn_rejects_non_string_selector ex_closure 20 [] _ _ _ _ _ [] ∅
           (IntValue 3)).
  - constructor.
  - reflexivity.
  - reflexivity.
  - intros s. discriminate.
Defined.

Lemma validateArg0_not_struct field T st :
  TKind T ≠ KindStruct →
  validateArg0 field (Some T) st
  = Err (Errorf "unable to build function with 0th arg of kind: %s").
Proof.
  intros Hk. apply Kind_eqb_neq in Hk. destruct st as [t1 t2].
  unfold validateArg0. rewrite Hk. reflexivity.
Qed.

(** X17: A first argument whose type is known, from its declaration or else from
    the solver, and is not a struct is rejected. *)
Theorem fn_rejects_non_struct_container
    c heap pre e func a0 a1 a2 post solved field T :
  Forall (other_call c) pre →
  Expr_ptr func = Expr_ptr (expr c) →
  staticField a1 = Ok field →
  TKind T ≠ KindStruct →
  Expr_Type a0 = Some (Some T)
  ∨ ((Expr_Type a0 = None ∨ Expr_Type a0 = Some None)
     ∧ solved !! Expr_ptr a0 = Some (Some T)) →
  fn c heap (pre ++ CallFuncArgsValueInvariant e func [a0; a1; a2] :: post)
     solved
  = Err (Wrapf (Errorf "unable to build function with 0th arg of kind: %s")
               "first struct arg type is inconsistent").
Proof.
  intros Hpre Hfunc Hf Hk Hch.
  rewrite (fn_stops_at_call c heap pre e func _ post solved Hpre Hfunc).
  unfold generate. simpl. rewrite Hf. simpl.
  unfold learn, ifKnown.
  destruct Hch as [->|[[->| ->] ->]]; simpl;
    rewrite ?validateArg0_nil; simpl;
    rewrite (validateArg0_not_struct field T _ Hk); reflexivity.
Qed.

Lemma fn_rejects_non_struct_container_witness :
  fn ex_closure 20
     ([] ++ CallFuncArgsValueInvariant (ex_arg 4 TypeInt None) (ExprAny 0)
              [ex_arg 1 TypeInt None;
               ex_arg 2 TypeStr (Some (StrValue "a"));
               ex_arg 3 TypeInt None] :: []) ∅
  = Err (Wrapf (Errorf "unable to build function with 0th arg of kind: %s")
               "first struct arg type is inconsistent").
Proof.
  apply (fn_rejects_non_struct_container ex_closure 20 [] _ _ _ _ _ [] ∅
           "a" TypeInt).
  - constructor.
  - reflexivity.
  - reflexivity.
  - discriminate.
  - left. reflexivity.
Defined.

(** ** The generator: what it returns *)

Lemma mapFields_spec c field ord :
  ∀ heap (m : gmap string Expr) o,
    (mapFields c field heap ord m o).2 = o ++ ord
    ∧ ∀ x,
        (x ∉ ord → (mapFields c field heap ord m o).1 !! x = m !! x)
        ∧ (x ∈ ord → x = field →
           (mapFields c field heap ord m o).1 !! x = Some (dummyOut c))
        ∧ (x ∈ ord → x ≠ field →
           ∃ i, ord !! i = Some x
                ∧ (mapFields c field heap ord m o).1 !! x
                  = Some (ExprAny (heap + i))).
Proof.
  induction ord as [|y ord IH]; intros heap m o; simpl.
  - split; [symmetry; apply app_nil_r|]. intros x.
    split; [reflexivity|]. split; intros Hx; inversion Hx.
  - set (m1 := if String.eqb y field
               then <[y := dummyOut c]> (<[y := ExprAny heap]> m)
               else <[y := ExprAny heap]> m).
    destruct (IH (S heap) m1 (o ++ [y])) as [Hord Hmap].
    split; [rewrite Hord, <- app_assoc; reflexivity|].
    intros x. destruct (Hmap x) as (Hout & Hfield & Hother).
    assert (Hy : x ∉ ord → x = y →
                 (mapFields c field (S heap) ord m1 (o ++ [y])).1 !! x
                 = if String.eqb y field then Some (dummyOut c)
                   else Some (ExprAny heap)).
    { intros Hn ->. rewrite (Hout Hn). unfold m1.
      destruct (String.eqb y field); apply lookup_insert_eq. }
    destruct (decide (x ∈ ord)) as [Hin|Hnin].
    + split; [intros Hn; exfalso; apply Hn; right; exact Hin|].
      split; [intros _; apply Hfield; exact Hin|].
      intros _ Hne. destruct (Hother Hin Hne) as (i & Hi & Hl).
      exists (S i). split; [exact Hi|].
      rewrite Hl, Nat.add_succ_r. reflexivity.
    + split; [|split].
      * intros Hn. rewrite (Hout Hnin). unfold m1.
        assert (y ≠ x) by (intros ->; apply Hn; left).
        destruct (String.eqb y field); rewrite ?lookup_insert_ne by assumption;
          reflexivity.
      * intros Hx ->. apply elem_of_cons in Hx. destruct Hx as [->|Hx];
          [|contradiction].
        rewrite (Hy Hnin eq_refl), String.eqb_refl. reflexivity.
      * intros Hx Hne. apply elem_of_cons in Hx. destruct Hx as [->|Hx];
          [|contradiction].
        exists 0%nat. split; [reflexivity|].
        rewrite (Hy Hnin eq_refl), Nat.add_0_r.
        destruct (String.eqb_spec y field); [contradiction | reflexivity].
Qed.

(** X18: The loop over the members of the struct keeps their order, maps every
    member and nothing else, maps the member under the field name to the
    return placeholder, and gives every other member a placeholder allocated
    for it: two other members never share one. *)
Theorem mapFields_placeholders c field heap ord :
  let mapped := (mapFields c field heap ord ∅ []).1 in
  (mapFields c field heap ord ∅ []).2 = ord
  ∧ (∀ x, is_Some (mapped !! x) ↔ x ∈ ord)
  ∧ (field ∈ ord → mapped !! field = Some (dummyOut c))
  ∧ (∀ x, x ∈ ord → x ≠ field →
          ∃ i, ord !! i = Some x ∧ mapped !! x = Some (ExprAny (heap + i)))
  ∧ (∀ x y ex ey, x ≠ field → y ≠ field → x ≠ y →
                  mapped !! x = Some ex → mapped !! y = Some ey →
                  Expr_ptr ex ≠ Expr_ptr ey).
Proof.
  intros mapped. destruct (mapFields_spec c field ord heap ∅ []) as [Hord Hmap].
  fold mapped in Hmap.
  assert (Hdom : ∀ x, is_Some (mapped !! x) ↔ x ∈ ord).
  { intros x. destruct (Hmap x) as (Hout & Hfield & Hother).
    destruct (decide (x ∈ ord)) as [Hin|Hnin].
    - split; [auto|]. intros _. destruct (decide (x = field)) as [E|E].
      + rewrite (Hfield Hin E). eauto.
      + destruct (Hother Hin E) as (i & _ & ->). eauto.
    - rewrite (Hout Hnin), lookup_empty. split; [intros [? ?]; discriminate|].
      contradiction. }
  split; [exact Hord|]. split; [exact Hdom|].
  split; [intros Hin; apply (Hmap field); auto|].
  split; [intros x; apply (Hmap x)|].
  intros x y ex ey Hx Hy Hxy Hex Hey.
  assert (Hinx : x ∈ ord) by (apply Hdom; eauto).
  assert (Hiny : y ∈ ord) by (apply Hdom; eauto).
  destruct (Hmap x) as (_ & _ & Hox). destruct (Hox Hinx Hx) as (i & Hi & Hli).
  destruct (Hmap y) as (_ & _ & Hoy). destruct (Hoy Hiny Hy) as (j & Hj & Hlj).
  rewrite Hli in Hex. rewrite Hlj in Hey.
  injection Hex as <-. injection Hey as <-. simpl.
  intros Heq. assert (i = j) by lia. subst j. congruence.
Qed.

Lemma mapFields_placeholders_witness :
  (mapFields ex_closure "a" 20 ["a"; "b"] ∅ []).1 !! "a" = Some (ExprAny 13).
Proof.
  refine (proj1 (proj2 (proj2 (mapFields_placeholders ex_closure "a" 20
                                  ["a"; "b"]))) _).
  left.
Defined.

Lemma structInvariants_present c heap field T :
  field ≠ EmptyString → snd (Map_get (TMap T) field) = true →
  ∃ mapped,
    structInvariants c heap field (Some T)
    = [EqualsInvariant (dummyStruct c) T;
       EqualityWrapStructInvariant (dummyStruct c) mapped (TOrd T)]
    ∧ mapped !! field = Some (dummyOut c)
    ∧ ∀ x, x ≠ field →
           mapped !! x = (mapFields c field heap (TOrd T) ∅ []).1 !! x.
Proof.
  intros Hf Hm. unfold structInvariants.
  pose proof (mapFields_spec c field (TOrd T) heap ∅ []) as [Hord _].
  destruct (mapFields c field heap (TOrd T) ∅ []) as [mapped ordered].
  simpl in Hord. subst ordered. rewrite Hm.
  destruct (String.eqb_spec field EmptyString); [contradiction|]. simpl.
  eexists. split; [reflexivity|]. split; [apply lookup_insert_eq|].
  intros x Hx. apply lookup_insert_ne. congruence.
Qed.

Lemma structInvariants_no_field c heap t1 :
  List.filter is_wrap_struct (structInvariants c heap EmptyString t1) = [].
Proof.
  unfold structInvariants. destruct t1 as [T|]; [|reflexivity].
  destruct (mapFields c EmptyString heap (TOrd T) ∅ []). reflexivity.
Qed.

Lemma structInvariants_length c heap field t1 :
  (length (structInvariants c heap field t1) ≤ 2)%nat.
Proof.
  unfold structInvariants. destruct t1 as [T|]; [|simpl; lia].
  destruct (mapFields c field heap (TOrd T) ∅ []).
  destruct (_ && _); simpl; lia.
Qed.

Lemma validateArg0_first field T :
  field ≠ EmptyString → TKind T = KindStruct →
  validateArg0 field (Some T) (None, None)
  = Ok (Some T, fst (Map_get (TMap T) field)).
Proof.
  intros Hf Hk. apply Kind_eqb_eq in Hk. unfold validateArg0. rewrite Hk. simpl.
  destruct (Map_get (TMap T) field) as [t ex].
  destruct (String.eqb_spec field EmptyString); [contradiction|]. simpl.
  destruct (negb ex || negb _); reflexivity.
Qed.

Lemma validate_all_arg2_t2 field l t1 t st :
  validate_all field (ObsArg2OrOut <$> l) (t1, Some t) = Ok st →
  ∃ t2, st.2 = Some t2.
Proof.
  revert t. induction l as [|[T|] l IH]; intros t; simpl.
  - intros [= <-]. eauto.
  - destruct (validateArg2OrOut (Some T) (t1, Some t)) as [st1| |] eqn:Hv; simpl;
      try discriminate.
    apply validateArg2OrOut_ok in Hv. destruct Hv as [-> _]. apply IH.
  - apply IH.
Qed.

(** X19: When the selector name is known and the struct type declared for the
    first argument has a member under it, the generator learns the member's
    type for the fallback and the return value.  If what is observed for
    those agrees with it, the generator returns the relations to the call,
    the type of the struct, its decomposition into members with the selected
    member tied to the return placeholder, one type for the fallback and
    the return placeholder, and the relation to the call. *)
Theorem generator_asserts_member_type
    c heap pre post e func a0 a1 a2 solved field T t st2 :
  Forall (other_call c) pre →
  Expr_ptr func = Expr_ptr (expr c) →
  Expr_Value a1 = Some (StrValue field) →
  field ≠ EmptyString →
  Expr_Type a0 = Some (Some T) →
  solved !! Expr_ptr a0 = None →
  TKind T = KindStruct →
  Map_get (TMap T) field = (Some t, true) →
  validate_all field (observations2 e a2 solved) (Some T, Some t) = Ok st2 →
  learn field e a0 a2 solved = Ok st2
  ∧ ∃ mapped t2,
      st2 = (Some T, Some t2)
      ∧ mapped !! field = Some (dummyOut c)
      ∧ fn c heap (pre ++ CallFuncArgsValueInvariant e func [a0; a1; a2] :: post)
           solved
        = Ok (callInvariants c e a0 a1 a2
                ++ [EqualsInvariant (dummyStruct c) T;
                    EqualityWrapStructInvariant (dummyStruct c) mapped (TOrd T);
                    EqualsInvariant (dummyOptional c) t2;
                    EqualsInvariant (dummyOut c) t2;
                    EqualityWrapCallInvariant e (expr c)]).
Proof.
  intros Hpre Hfunc Hval Hf Ha0 Hs0 Hk Hm H2.
  assert (Hl : learn field e a0 a2 solved = Ok st2).
  { pose proof (learn_validate_all field e a0 a2 solved) as Hl.
    unfold observations in Hl. rewrite validate_all_app in Hl.
    unfold observations0, known in Hl. rewrite Ha0, Hs0 in Hl. simpl in Hl.
    rewrite (validateArg0_first field T Hf Hk), Hm in Hl. simpl in Hl.
    rewrite H2 in Hl. exact Hl. }
  split; [exact Hl|].
  pose proof (validate_all_arg2_t1 _ _ _ _ H2) as Ht1.
  destruct (validate_all_arg2_t2 _ _ _ _ _ H2) as [t2 Ht2].
  destruct st2 as [t1' t2']. simpl in Ht1, Ht2. subst t1' t2'.
  destruct (structInvariants_present c heap field T Hf)
    as (mapped & Hsi & Hmf & _); [rewrite Hm; reflexivity|].
  exists mapped, t2. split; [reflexivity|]. split; [exact Hmf|].
  rewrite (fn_stops_at_call c heap pre e func _ post solved Hpre Hfunc).
  unfold generate. simpl. rewrite (staticField_str a1 field Hval). simpl.
  rewrite Hl. simpl. rewrite Hsi. reflexivity.
Qed.

Lemma generator_asserts_member_type_witness :
  learn "a" (ex_arg 4 TypeInt None) (ex_arg 1 ex_type None)
        (ex_arg 3 TypeInt None) ∅
  = Ok (Some ex_type, Some TypeInt).
Proof.
  refine (proj1 (generator_asserts_member_type ex_closure 20 [] []
            (ex_arg 4 TypeInt None) (ExprAny 0) (ex_arg 1 ex_type None)
            (ex_arg 2 TypeStr (Some (StrValue "a"))) (ex_arg 3 TypeInt None)
            ∅ "a" ex_type TypeInt (Some ex_type, Some TypeInt)
            _ _ _ _ _ _ _ _ _)).
  - constructor.
  - reflexivity.
  - reflexivity.
  - discriminate.
  - reflexivity.
  - reflexivity.
  - reflexivity.
  - reflexivity.
  - reflexivity.
Defined.

(** X20: Every successful run of the generator returns the five relations to the
    call it found first, the relation to the call last, and at most four
    invariants on its placeholders in between. *)
Theorem fn_success_shape c heap invs solved out :
  fn c heap invs solved = Ok out →
  ∃ e func a0 a1 a2 mid,
    CallFuncArgsValueInvariant e func [a0; a1; a2] ∈ invs
    ∧ Expr_ptr func = Expr_ptr (expr c)
    ∧ out = callInvariants c e a0 a1 a2 ++ mid
              ++ [EqualityWrapCallInvariant e (expr c)]
    ∧ (length mid ≤ 4)%nat.
Proof.
  intros Hfn.
  destruct (fn_cases c heap invs solved)
    as [[_ Hno]|(pre & e & func & args & post & -> & _ & Hfunc & Hg)];
    [congruence|].
  rewrite Hg in Hfn.
  destruct (generate_ok _ _ _ _ _ _ Hfn)
    as (a0 & a1 & a2 & field & t1 & t2 & -> & _ & _ & ->).
  exists e, func, a0, a1, a2,
    (structInvariants c heap field t1 ++ optionalInvariants c t2).
  split; [apply elem_of_app; right; left|]. split; [exact Hfunc|].
  split; [rewrite <- !app_assoc; reflexivity|].
  rewrite length_app. pose proof (structInvariants_length c heap field t1).
  destruct t2; simpl; lia.
Qed.

Lemma fn_success_shape_witness :
  ∃ e func a0 a1 a2 mid,
    CallFuncArgsValueInvariant e func [a0; a1; a2]
      ∈ [CallFuncArgsValueInvariant (ExprAny 4) (ExprAny 0)
           [ExprAny 1; ExprAny 2; ExprAny 3]]
    ∧ Expr_ptr func = Expr_ptr (expr ex_closure)
    ∧ callInvariants ex_closure (ExprAny 4) (ExprAny 1) (ExprAny 2) (ExprAny 3)
        ++ [EqualityWrapCallInvariant (ExprAny 4) (ExprAny 0)]
      = callInvariants ex_closure e a0 a1 a2 ++ mid
          ++ [EqualityWrapCallInvariant e (expr ex_closure)]
    ∧ (length mid ≤ 4)%nat.
Proof.
  apply (fn_success_shape ex_closure 20
           [CallFuncArgsValueInvariant (ExprAny 4) (ExprAny 0)
              [ExprAny 1; ExprAny 2; ExprAny 3]] ∅).
  reflexivity.
Defined.

(** X21: While the selector name is not known statically, the generator never
    returns the decomposition of the struct into members, whatever it
    learns about the struct. *)
Theorem fn_unknown_selector_no_decomposition
    c heap pre e func a0 a1 a2 post solved out :
  Forall (other_call c) pre →
  Expr_ptr func = Expr_ptr (expr c) →
  Expr_Value a1 = None →
  fn c heap (pre ++ CallFuncArgsValueInvariant e func [a0; a1; a2] :: post)
     solved = Ok out →
  List.filter is_wrap_struct out = [].
Proof.
  intros Hpre Hfunc Hv Hfn.
  rewrite (fn_stops_at_call c heap pre e func _ post solved Hpre Hfunc) in Hfn.
  destruct (generate_ok _ _ _ _ _ _ Hfn)
    as (b0 & b1 & b2 & field & t1 & t2 & [= <- <- <-] & Hs & _ & ->).
  rewrite (staticField_unknown a1 Hv) in Hs. injection Hs as <-.
  rewrite !List.filter_app, structInvariants_no_field.
  destruct t2; reflexivity.
Qed.

Lemma fn_unknown_selector_no_decomposition_witness :
  List.filter is_wrap_struct
    [EqualityInvariant (ex_arg 4 TypeInt None) (ExprAny 13);
     EqualityInvariant (ex_arg 1 ex_type None) (ExprAny 10);
     EqualityInvariant (ex_arg 2 TypeStr None) (ExprAny 11);
     EqualityInvariant (ex_arg 3 TypeInt None) (ExprAny 12);
     EqualsInvariant (ex_arg 2 TypeStr None) TypeStr;
     EqualsInvariant (ExprAny 10) ex_type;
     EqualsInvariant (ExprAny 12) TypeInt;
     EqualsInvariant (ExprAny 13) TypeInt;
     EqualityWrapCallInvariant (ex_arg 4 TypeInt None) (ExprAny 0)] = [].
Proof.
  apply (fn_unknown_selector_no_decomposition ex_closure 20 []
           (ex_arg 4 TypeInt None) (ExprAny 0) (ex_arg 1 ex_type None)
           (ex_arg 2 TypeStr None) (ex_arg 3 TypeInt None) [] ∅).
  - constructor.
  - reflexivity.
  - reflexivity.
  - reflexivity.
Defined.

(** X22: With nothing known, neither a value for the selector nor a type for any
    argument or for the call, the generator still succeeds: it returns the
    five relations to the call and the relation to the call, and no type. *)
Theorem generator_with_nothing_known
    c heap pre e func a0 a1 a2 post solved :
  Forall (other_call c) pre →
  Expr_ptr func = Expr_ptr (expr c) →
  Expr_Value a1 = None →
  Expr_Type a0 = None → Expr_Type a2 = None → Expr_Type e = None →
  solved !! Expr_ptr a0 = None → solved !! Expr_ptr a2 = None →
  solved !! Expr_ptr e = None →
  fn c heap (pre ++ CallFuncArgsValueInvariant e func [a0; a1; a2] :: post)
     solved
  = Ok (callInvariants c e a0 a1 a2 ++ [EqualityWrapCallInvariant e (expr c)]).
Proof.
  intros Hpre Hfunc Hv H0 H2 He S0 S2 Se.
  rewrite (fn_stops_at_call c heap pre e func _ post solved Hpre Hfunc).
  unfold generate. simpl. rewrite (staticField_unknown a1 Hv). simpl.
  unfold learn, ifKnown. rewrite H0, H2, He, S0, S2, Se. reflexivity.
Qed.

Lemma generator_with_nothing_known_witness :
  fn ex_closure 20
     ([] ++ CallFuncArgsValueInvariant (ExprAny 4) (ExprAny 0)
              [ExprAny 1; ExprAny 2; ExprAny 3] :: []) ∅
  = Ok (callInvariants ex_closure (ExprAny 4) (ExprAny 1) (ExprAny 2) (ExprAny 3)
          ++ [EqualityWrapCallInvariant (ExprAny 4) (ExprAny 0)]).
Proof.
  apply generator_with_nothing_known; try reflexivity. constructor.
Defined.

(** X23: [Unify] and its generator: the invariants [Unify] returns carry the
    generator closed over the expression, and hold no mapping to a call, so
    that the generator run on them alone reports no progress; it needs the
    solver to add the call. *)
Theorem Unify_generator_needs_call obj heap e invs :
  Unify obj heap e = Ok invs →
  ∃ c, last invs = Some (GeneratorInvariant c)
       ∧ expr c = e
       ∧ Forall (other_call c) invs
       ∧ ∀ heap' solved, fn c heap' invs solved = Err errNoProgress.
Proof.
  unfold Unify. simpl. intros [= <-]. eexists. split; [reflexivity|].
  split; [reflexivity|].
  assert (H : ∀ c' : Closure, Forall (other_call c')
    [EqualsInvariant (ExprAny (heap + 1)) TypeStr;
     EqualityInvariant (ExprAny (heap + 2)) (ExprAny (heap + 3));
     EqualityWrapFuncInvariant e
       (<["optional" := ExprAny (heap + 2)]>
          (<["field" := ExprAny (heap + 1)]> (<["struct" := ExprAny heap]> ∅)))
       ["struct"; "field"; "optional"] (ExprAny (heap + 3));
     GeneratorInvariant c']) by (intros c'; repeat constructor).
  split; [apply H|]. intros heap' solved. reflexivity.
Qed.

Lemma Unify_generator_needs_call_witness :
  ∃ c, last [EqualsInvariant (ExprAny 1) TypeStr;
             EqualityInvariant (ExprAny 2) (ExprAny 3);
             EqualityWrapFuncInvariant (ExprAny 9)
               (<["optional" := ExprAny 2]>
                  (<["field" := ExprAny 1]> (<["struct" := ExprAny 0]> ∅)))
               ["struct"; "field"; "optional"] (ExprAny 3);
             GeneratorInvariant
               {| expr := ExprAny 9; dummyStruct := ExprAny 0;
                  dummyField := ExprAny 1; dummyOptional := ExprAny 2;
                  dummyOut := ExprAny 3 |}]
       = Some (GeneratorInvariant c).
Proof.
  destruct (Unify_generator_needs_call new_func 0 (ExprAny 9) _ eq_refl)
    as (c & Hc & _).
  exists c. exact Hc.
Defined.
